(** * lambda.py: an untyped lambda-calculus engine

    A shallow embedding of [lambda.py]: the three term classes
    ([Variable], [Application], [Function]) with their methods
    [unpack_saved], [search], [substitute], [step] and [is_eta_equiv],
    the lexer [lex], and the stack parser ([build_application],
    [apply_stack], [parse]).

    Python values are modelled as follows.
    - A [str] is the list of its Unicode code points ([pystr]); the
      source iterates over strings character by character and the
      lambda marker is one character, so bytes would not do.
    - A dictionary keyed by [Variable] objects (which hash and compare
      by [name]) is a [gmap] keyed by the name.
    - [int] mode flags are [Z] with [Z.lor] and [Z.land].
    - A Python list used as a stack is a [list] whose last element is
      the top, so that the indices of the source are the indices here. *)

From Stdlib Require Import String Ascii DecimalZ.
From stdpp Require Import base option list numbers countable gmap.

Set Default Proof Using "Type".
Local Open Scope N_scope.

(** ** Strings *)

(** A Python [str]: the sequence of its code points. *)
Abbreviation pystr := (list N).

(** Decoding of a UTF-8 byte sequence (the encoding of the source file
    and of the literals below) into code points. *)
Fixpoint utf8_decode (bs : list N) : pystr :=
  match bs with
  | [] => []
  | b0 :: r0 =>
    if b0 <? 0x80 then b0 :: utf8_decode r0
    else if b0 <? 0xE0 then
      match r0 with
      | b1 :: r1 =>
        N.lor (N.shiftl (N.land b0 0x1F) 6) (N.land b1 0x3F) :: utf8_decode r1
      | _ => []
      end
    else if b0 <? 0xF0 then
      match r0 with
      | b1 :: b2 :: r2 =>
        N.lor (N.shiftl (N.land b0 0x0F) 12)
          (N.lor (N.shiftl (N.land b1 0x3F) 6) (N.land b2 0x3F))
        :: utf8_decode r2
      | _ => []
      end
    else
      match r0 with
      | b1 :: b2 :: b3 :: r3 =>
        N.lor (N.shiftl (N.land b0 0x07) 18)
          (N.lor (N.shiftl (N.land b1 0x3F) 12)
             (N.lor (N.shiftl (N.land b2 0x3F) 6) (N.land b3 0x3F)))
        :: utf8_decode r3
      | _ => []
      end
  end.

(** [py "..."] is the Python string written by that literal. *)
Definition py (s : string) : pystr :=
  utf8_decode (map N_of_ascii (list_ascii_of_string s)).

(** The prime marker appended by [Function.substitute]. *)
Definition prime : pystr := py "'".

(** ** Terms *)

(** The three node classes.  [Function.arg] is always a [Variable]
    object (the parser checks [isinstance] before building one and
    [substitute] builds it with [Variable(...)]); it is kept by its
    name, which is all [Variable.__eq__] and [__hash__] look at.
    The class [Variable] is the constructor [Var] here ([Variable] is a
    reserved word of Rocq). *)
Inductive term : Type :=
  | Var (name : pystr)
  | Application (left right : term)
  | Function (arg : pystr) (body : term).

Global Instance term_eq_dec : EqDecision term.
Proof. solve_decision. Defined.

(** Longest chain of nested method calls a traversal of the term makes. *)
Fixpoint height (t : term) : nat :=
  match t with
  | Var _ => 0
  | Application l r => S (Nat.max (height l) (height r))
  | Function _ b => S (height b)
  end.

(** Length of the longest variable name occurring at a leaf. *)
Fixpoint longest_name (t : term) : nat :=
  match t with
  | Var n => length n
  | Application l r => Nat.max (longest_name l) (longest_name r)
  | Function _ b => longest_name b
  end.

(** *** [unpack_saved] *)

Fixpoint unpack_saved (self : term) (saved : gmap pystr term) : term :=
  match self with
  | Var name =>
    match saved !! name with
    | Some v => v
    | None => self
    end
  | Application l r => Application (unpack_saved l saved) (unpack_saved r saved)
  | Function arg body =>
    if decide (is_Some (saved !! arg)) then self
    else Function arg (unpack_saved body saved)
  end.

(** *** [search] : free-variable search; [var] is the variable's name. *)

Fixpoint search (self : term) (var : pystr) : bool :=
  match self with
  | Var name => bool_decide (name = var)
  | Application l r => search l var || search r var
  | Function arg body => bool_decide (arg ≠ var) && search body var
  end.

(** *** [substitute] *)

(** The renaming loop of [Function.substitute]:
    [while replace.search(arg): arg = Variable(arg.name + "'")].
    The fuel counts the remaining iterations. *)
Fixpoint rename_loop (fuel : nat) (replace : term) (arg : pystr) : option pystr :=
  match fuel with
  | O => None
  | S fuel' =>
    if search replace arg then rename_loop fuel' replace (arg ++ prime)
    else Some arg
  end.

(** The candidates grow by one character a round and no name longer than
    every name of [replace] is free in it, so this many rounds are enough
    ([rename_loop_enough]). *)
Definition fresh_arg (replace : term) (arg : pystr) : pystr :=
  default arg (rename_loop (S (S (longest_name replace))) replace arg).

(** [substitute] with a bound on the depth of nested calls.  In the
    [Function] case the second recursive call is on the renamed body,
    which is not a subterm of [self]; hence the fuel. *)
Fixpoint substitute_fuel (fuel : nat) (self : term) (find : pystr) (replace : term)
    : option term :=
  match fuel with
  | O => None
  | S fuel' =>
    match self with
    | Var name =>
      Some (if decide (name = find) then replace else self)
    | Application l r =>
      l' ← substitute_fuel fuel' l find replace;
      r' ← substitute_fuel fuel' r find replace;
      Some (Application l' r')
    | Function self_arg self_body =>
      if decide (self_arg = find) then Some self
      else
        let arg := fresh_arg replace self_arg in
        body ← (if decide (arg ≠ self_arg)
                then substitute_fuel fuel' self_body self_arg (Var arg)
                else Some self_body);
        body' ← substitute_fuel fuel' body find replace;
        Some (Function arg body')
    end
  end.

(** The method itself.  A call on [self] nests at most [height self]
    further calls ([substitute_fuel_enough]), so the default is never
    taken. *)
Definition substitute (self : term) (find : pystr) (replace : term) : term :=
  default self (substitute_fuel (S (height self)) self find replace).
Arguments substitute : simpl never.

(** *** [step] *)

Fixpoint step (self : term) : term * bool :=
  match self with
  | Var _ => (self, false)
  | Application l r =>
    match l with
    | Function l_arg l_body => (substitute l_body l_arg r, true)
    | _ =>
      let '(left', changed) := step l in
      if changed then (Application left' r, true)
      else
        let '(right', changed') := step r in
        (Application left' right', changed')
    end
  | Function arg body =>
    let '(body', changed) := step body in
    (Function arg body', changed)
  end.

(** *** [is_eta_equiv] *)

(** [var_dict] maps a [Variable] to a [Variable]; both are kept by name.
    The default argument [{}] is never mutated: the [Function] case
    copies the dictionary before it writes to it. *)
Fixpoint is_eta_equiv (self other : term) (var_dict : gmap pystr pystr) : bool :=
  match self, other with
  | Var name, Var other_name =>
    bool_decide (name = other_name)
    || match var_dict !! name with
       | Some v => bool_decide (v = other_name)
       | None => false
       end
  | Application l r, Application other_l other_r =>
    is_eta_equiv l other_l var_dict && is_eta_equiv r other_r var_dict
  | Function arg body, Function other_arg other_body =>
    let new_var_dict :=
      if decide (arg ≠ other_arg) then <[arg := other_arg]> var_dict
      else var_dict in
    is_eta_equiv body other_body new_var_dict
  | _, _ => false
  end.

(** ** Python objects of the parser *)

(** What the parser's stack, [built] and [var_name] can hold: [None], a
    [str], or a node.  [Application] and [Function] are built from
    whatever is on the stack, so a node's children are objects again
    (parsing [a ()] builds [Application(a, None)]). *)
Inductive pyobj : Type :=
  | PyNone
  | PyStr (s : pystr)
  | PyVar (name : pystr)
  | PyApplication (left right : pyobj)
  | PyFunction (arg body : pyobj).

Global Instance pyobj_eq_dec : EqDecision pyobj.
Proof. solve_decision. Defined.

(** A term seen as a Python object. *)
Fixpoint of_term (t : term) : pyobj :=
  match t with
  | Var name => PyVar name
  | Application l r => PyApplication (of_term l) (of_term r)
  | Function arg body => PyFunction (PyVar arg) (of_term body)
  end.

(** [isinstance(o, Variable)], [isinstance(o, Function)],
    [isinstance(o, str)], [o is None]. *)
Definition is_Variable (o : pyobj) : bool :=
  match o with PyVar _ => true | _ => false end.
Definition is_Function (o : pyobj) : bool :=
  match o with PyFunction _ _ => true | _ => false end.
Definition is_str (o : pyobj) : bool :=
  match o with PyStr _ => true | _ => false end.
Definition is_None (o : pyobj) : bool :=
  match o with PyNone => true | _ => false end.

(** [o == s] for a string literal [s]: the [__eq__] of the three node
    classes answers [False] to a [str], and so does [None]. *)
Definition eq_str (o : pyobj) (s : pystr) : bool :=
  match o with PyStr s' => bool_decide (s' = s) | _ => false end.

(** *** Exceptions *)

Inductive exn : Type := IndexError.

Inductive outcome (A : Type) : Type :=
  | Returns (a : A)
  | Raises (e : exn).
Arguments Returns {A} a.
Arguments Raises {A} e.

Global Instance outcome_ret : MRet outcome := @Returns.
Global Instance outcome_bind : MBind outcome := λ A B f m,
  match m with
  | Returns a => f a
  | Raises e => Raises e
  end.

(** [stack.pop()] and [stack[i]]. *)
Definition list_pop (stack : list pyobj) : outcome (pyobj * list pyobj) :=
  match last stack with
  | Some top => Returns (top, removelast stack)
  | None => Raises IndexError
  end.

Definition list_get (stack : list pyobj) (i : nat) : outcome pyobj :=
  match stack !! i with
  | Some o => Returns o
  | None => Raises IndexError
  end.

(** *** [__repr__] *)

(** [s.split(c)] for a one-character separator and [sep.join(l)]. *)
Fixpoint split_on (c : N) (s : pystr) : list pystr :=
  match s with
  | [] => [[]]
  | d :: r =>
    if decide (d = c) then [] :: split_on c r
    else match split_on c r with
         | p :: ps => (d :: p) :: ps
         | [] => [[d]]
         end
  end.

Definition join (sep : pystr) (l : list pystr) : pystr :=
  match l with
  | [] => []
  | p :: ps => p ++ concat (map (λ q, sep ++ q) ps)
  end.

(** ['%s' % o]: a [str] is itself, [None] is ['None'], a node is its
    [__repr__]. *)
Fixpoint py_str (o : pyobj) : pystr :=
  match o with
  | PyNone => py "None"
  | PyStr s => s
  | PyVar name => name
  | PyApplication l r =>
    (if is_Function l then py "(" ++ py_str l ++ py ")" else py_str l)
    ++ py " "
    ++ (if is_Variable r then py_str r else py "(" ++ py_str r ++ py ")")
  | PyFunction arg body =>
    if is_Function body then
      let pieces := split_on 46 (py_str body) in
      let args := tail (hd [] pieces) in
      py "λ" ++ py_str arg ++ py " " ++ args ++ py "." ++ join (py ".") (tail pieces)
    else py "λ" ++ py_str arg ++ py "." ++ py_str body
  end.

(** ['%r' % o].  For a [str] this is the string between single quotes,
    which is what Python prints for a string without quotes, backslashes
    or unprintable characters; the strings the parser pushes and formats
    this way are ['('] and ['.']. *)
Definition py_repr (o : pyobj) : pystr :=
  match o with
  | PyStr s => py "'" ++ s ++ py "'"
  | _ => py_str o
  end.

(** ** Lexer *)

(** [needle in hay] for two strings: substring test. *)
Fixpoint starts_with (hay needle : pystr) : bool :=
  match needle, hay with
  | [], _ => true
  | c :: needle', d :: hay' => bool_decide (c = d) && starts_with hay' needle'
  | _ :: _, [] => false
  end.

Fixpoint str_in (needle hay : pystr) : bool :=
  starts_with hay needle
  || match hay with
     | [] => false
     | _ :: hay' => str_in needle hay'
     end.

(** The generator [lex], run to its end; [token] is the pending symbol. *)
Fixpoint lex_from (string token : pystr) : list pystr :=
  let flush := if decide (token ≠ []) then [token] else [] in
  match string with
  | [] => flush
  | c :: rest =>
    if str_in [c] (py "().\λ=") then flush ++ [c] :: lex_from rest []
    else if str_in [c] [32; 9] then flush ++ lex_from rest []
    else if decide (c = 59) then flush
    else lex_from rest (token ++ [c])
  end.

Definition lex (string : pystr) : list pystr := lex_from string [].

(** ** Parser *)

(** [build_application(stack, start_index)]: the value returned and the
    stack after [del stack[start_index:]]. *)
Definition build_application (stack : list pyobj) (start_index : nat)
    : pyobj * list pyobj :=
  (foldl (λ built expr, if is_None built then expr else PyApplication built expr)
         PyNone (drop start_index stack),
   take start_index stack).

(** Where one round of the loop of [apply_stack] leaves the function. *)
Inductive flow : Type :=
  | Return (value : pyobj) (stack : list pyobj)
  | Continue (stack : list pyobj) (built : pyobj) (checking_lambda_args : bool).

Definition is_lambda (expr : pyobj) : bool :=
  eq_str expr (py "\") || eq_str expr (py "λ").

(** The body of [for i in range(len(stack))[::-1]]. *)
Definition apply_stack_round (i : nat) (stack : list pyobj) (built : pyobj)
    (checking_lambda_args : bool) : outcome flow :=
  expr ← list_get stack i;
  if checking_lambda_args then
    if is_Variable expr then
      '(top, stack) ← list_pop stack;
      mret (Continue stack (PyFunction top built) true)
    else if is_lambda expr then
      if negb (is_Function built) then
        mret (Return (PyStr (py "Syntax error: '" ++ py_str expr
                             ++ py "' followed by '.'")) stack)
      else
        '(_, stack) ← list_pop stack;
        mret (Continue (stack ++ [built]) PyNone false)
    else
      mret (Return (PyStr (py "Syntax error: invalid argument " ++ py_repr expr))
                   stack)
  else if eq_str expr (py "(") then
    let '(built, stack) := build_application stack (i + 1) in
    mret (Return built stack)
  else if eq_str expr (py ".") then
    let '(built, stack) := build_application stack (i + 1) in
    '(_, stack) ← list_pop stack;
    mret (Continue stack built true)
  else if is_lambda expr then
    mret (Return (PyStr (py "Syntax error: unexpected '" ++ py_str expr ++ py "'"))
                 stack)
  else mret (Continue stack built checking_lambda_args).

Fixpoint apply_stack_loop (indices : list nat) (stack : list pyobj) (built : pyobj)
    (checking_lambda_args : bool) : outcome flow :=
  match indices with
  | [] => mret (Continue stack built checking_lambda_args)
  | i :: indices' =>
    f ← apply_stack_round i stack built checking_lambda_args;
    match f with
    | Return _ _ => mret f
    | Continue stack built checking_lambda_args =>
      apply_stack_loop indices' stack built checking_lambda_args
    end
  end.

(** [apply_stack(stack)]: the value returned and the stack it leaves. *)
Definition apply_stack (stack : list pyobj) : outcome (pyobj * list pyobj) :=
  f ← apply_stack_loop (reverse (seq 0 (length stack))) stack PyNone false;
  match f with
  | Return value stack => mret (value, stack)
  | Continue stack built checking_lambda_args =>
    if checking_lambda_args then
      mret (PyStr (py "Syntax error: unexpected '.'"), stack)
    else if is_None built then mret (build_application stack 0)
    else mret (built, stack)
  end.

(** Running mode constants. *)
Definition LAMBDA_MODE_NONE : Z := 0.
Definition LAMBDA_MODE_RUN : Z := 1.
Definition LAMBDA_MODE_SET : Z := 2.
Definition LAMBDA_MODE_STEP : Z := 4.
Definition LAMBDA_MODE_ERR : Z := 8.

(** The local variables of [parse]. *)
Record locals : Type := Locals {
  stack : list pyobj;
  inside_lambda : bool;
  mode : Z;
  var_name : pyobj
}.

(** Where one round of the token loop of [parse] leaves the function. *)
Inductive parse_flow : Type :=
  | Done (result : pyobj * Z)
  | Next (st : locals).

Definition syntax_error (msg : string) : parse_flow :=
  Done (PyStr (py msg), LAMBDA_MODE_ERR).

(** The body of [for token in lex(string)]. *)
Definition parse_token (token : pystr) (st : locals) : outcome parse_flow :=
  let '(Locals stack inside_lambda mode var_name) := st in
  if str_in token (py "(") then
    mret (Next (Locals (stack ++ [PyStr token]) inside_lambda mode var_name))
  else if str_in token (py "\λ.") then
    mret (Next (Locals (stack ++ [PyStr token]) (bool_decide (token ≠ py "."))
                       mode var_name))
  else if decide (token = py ")") then
    '(built, stack) ← apply_stack stack;
    if is_str built then mret (Done (built, LAMBDA_MODE_ERR))
    else if decide (length stack = 0%nat) then
      mret (syntax_error "Syntax error: unexpected ')'")
    else
      '(_, stack) ← list_pop stack;
      mret (Next (Locals (stack ++ [built]) inside_lambda mode var_name))
  else if decide (token = py "run") then
    if bool_decide (length stack = 0%nat)
       && bool_decide (Z.land mode LAMBDA_MODE_STEP = 0%Z) then
      mret (Next (Locals stack inside_lambda (Z.lor mode LAMBDA_MODE_RUN) var_name))
    else mret (syntax_error "Syntax error: unexpected 'run'")
  else if decide (token = py "step") then
    if bool_decide (length stack = 0%nat)
       && bool_decide (Z.land mode LAMBDA_MODE_RUN = 0%Z) then
      mret (Next (Locals stack inside_lambda (Z.lor mode LAMBDA_MODE_STEP) var_name))
    else mret (syntax_error "Syntax error: unexpected 'run'")
  else if decide (token = py "=") then
    match stack with
    | [PyVar _] =>
      '(top, stack) ← list_pop stack;
      mret (Next (Locals stack inside_lambda (Z.lor mode LAMBDA_MODE_SET) top))
    | _ => mret (syntax_error "Syntax error: unexpected '='")
    end
  else
    mret (Next (Locals (stack ++ [PyVar token]) inside_lambda mode var_name)).

Fixpoint parse_tokens (tokens : list pystr) (st : locals) : outcome parse_flow :=
  match tokens with
  | [] => mret (Next st)
  | token :: tokens' =>
    f ← parse_token token st;
    match f with
    | Done _ => mret f
    | Next st' => parse_tokens tokens' st'
    end
  end.

(** [parse(string)]: the pair it returns, or the exception it raises. *)
Definition parse (string : pystr) : outcome (pyobj * Z) :=
  f ← parse_tokens (lex string) (Locals [] false LAMBDA_MODE_NONE PyNone);
  match f with
  | Done result => mret result
  | Next (Locals stack _ mode var_name) =>
    '(built, stack) ← apply_stack stack;
    if bool_decide (0 < length stack)%nat && negb (is_str built) then
      mret (PyStr (py "Syntax error: unmatched '('"), LAMBDA_MODE_ERR)
    else if is_str built then mret (built, LAMBDA_MODE_ERR)
    else if negb (bool_decide (Z.land mode LAMBDA_MODE_SET = 0%Z)) then
      if is_None built then
        mret (PyStr (py "Syntax error: unexpected '='"), LAMBDA_MODE_ERR)
      else mret (PyApplication var_name built, mode)
    else mret (built, mode)
  end.

(** ** Positions in a term, and the statements about substitution *)

(** One step down a term: into [left], [right] or [body]. *)
Inductive dir : Type := GoLeft | GoRight | GoBody.

(** The node a path from the root leads to, if the path exists. *)
Fixpoint subterm_at (t : term) (pos : list dir) : option term :=
  match pos, t with
  | [], _ => Some t
  | GoLeft :: pos', Application l _ => subterm_at l pos'
  | GoRight :: pos', Application _ r => subterm_at r pos'
  | GoBody :: pos', Function _ b => subterm_at b pos'
  | _, _ => None
  end.

(** The parameters of the abstractions the path goes through, that is
    the binders in whose scope the node at [pos] lies. *)
Fixpoint binders_above (t : term) (pos : list dir) : list pystr :=
  match pos, t with
  | GoLeft :: pos', Application l _ => binders_above l pos'
  | GoRight :: pos', Application _ r => binders_above r pos'
  | GoBody :: pos', Function a b => a :: binders_above b pos'
  | _, _ => []
  end.

(** The nested calls of [self.substitute(find, replace)]: the term on
    which the call for the node at [pos] is made, if one is made.
    [Application.substitute] calls the method on [left] and on [right];
    [Function.substitute] returns [self] when [self.arg == find], making
    no further call, and otherwise calls the method on [body], which is
    [self.body] after the alpha-conversion, if there was one. *)
Fixpoint call_at (self : term) (find : pystr) (replace : term) (pos : list dir)
    : option term :=
  match pos, self with
  | [], _ => Some self
  | GoLeft :: pos', Application l _ => call_at l find replace pos'
  | GoRight :: pos', Application _ r => call_at r find replace pos'
  | GoBody :: pos', Function self_arg self_body =>
    if decide (self_arg = find) then None
    else
      let arg := fresh_arg replace self_arg in
      let body := if decide (arg ≠ self_arg)
                  then substitute self_body self_arg (Var arg)
                  else self_body in
      call_at body find replace pos'
  | _, _ => None
  end.

(** The substitution reaches the node at [pos]: the method is called
    there and, on an abstraction, goes past [if self.arg == find]. *)
Definition reached (self : term) (find : pystr) (replace : term) (pos : list dir)
    : bool :=
  match call_at self find replace pos with
  | Some (Function self_arg _) => bool_decide (self_arg ≠ find)
  | Some _ => true
  | None => false
  end.

(** "For every abstraction surviving in the result with parameter [p],
    [p] does not occur free in [R] unless [p] was already present in [M]
    bound at that position": an abstraction of [M] survives at its own
    position (substitution keeps the shape of [M] above its leaves). *)
Definition no_capture_as_stated (M : term) (x : pystr) (R : term) : Prop :=
  ∀ pos a0 b0 p b,
    subterm_at M pos = Some (Function a0 b0) →
    subterm_at (substitute M x R) pos = Some (Function p b) →
    search R p = false ∨ p = a0.

(** "Whenever [substitute] renames an abstraction's parameter, the fresh
    name is not free in the replacement and is not the target's name." *)
Definition fresh_name_as_stated (a : pystr) (b : term) (x : pystr) (R : term)
    : Prop :=
  ∀ p body',
    substitute (Function a b) x R = Function p body' → p ≠ a →
    search R p = false ∧ p ≠ x.

(** "Every free occurrence of a saved variable is replaced by its stored
    value", in the words of the spec, for the one saved variable [x] with
    the value [v]: an occurrence under an abstraction with the parameter
    [x] is bound. *)
Fixpoint replace_free (x : pystr) (v : term) (t : term) : term :=
  match t with
  | Var name => if decide (name = x) then v else t
  | Application l r => Application (replace_free x v l) (replace_free x v r)
  | Function arg body =>
    if decide (arg = x) then t else Function arg (replace_free x v body)
  end.

(** ** Terms of the examples *)

Module Ex.
Definition a : term := Var (py "a").
Definition b : term := Var (py "b").
Definition x : term := Var (py "x").
Definition y : term := Var (py "y").
Definition z : term := Var (py "z").
(** [λx.x] and [λy.y] *)
Definition id_x : term := Function (py "x") x.
Definition id_y : term := Function (py "y") y.
(** [λx.x x] *)
Definition dup_x : term := Function (py "x") (Application x x).
(** [λx.λy.x] and [λy.λy.y] *)
Definition const_xy : term := Function (py "x") (Function (py "y") x).
Definition const_yy : term := Function (py "y") (Function (py "y") y).
(** [λy.λx.λy'.y] and [y y''] *)
Definition shadowed : term :=
  Function (py "y") (Function (py "x") (Function (py "y'") y)).
Definition y_y'' : term := Application y (Var (py "y''")).
(** [λy.λz.y'] and [y z] *)
Definition const_y' : term :=
  Function (py "y") (Function (py "z") (Var (py "y'"))).
Definition y_z : term := Application y z.
(** [λy.y y'], and [(λy' y.y y') y], which steps to it with [y] for [y'] *)
Definition y_y' : term := Function (py "y") (Application y (Var (py "y'"))).
Definition redex_y' : term := Application (Function (py "y'") y_y') y.
End Ex.

(** ** Reading the result of [parse] *)

(** The call returned the pair of an error message that is not empty and
    a mode with the [LAMBDA_MODE_ERR] bit. *)
Definition error_result (r : outcome (pyobj * Z)) : Prop :=
  ∃ msg m, r = Returns (PyStr msg, m)
           ∧ msg ≠ [] ∧ Z.land m LAMBDA_MODE_ERR ≠ 0%Z.

(** ** Redexes *)

(** The term contains a beta redex: an application whose [left] is an
    abstraction. *)
Fixpoint has_redex (t : term) : bool :=
  match t with
  | Var _ => false
  | Application l r =>
    match l with Function _ _ => true | _ => false end
    || has_redex l || has_redex r
  | Function _ b => has_redex b
  end.

(** The tree of a term without its names. *)
Inductive shape : Type :=
  | SLeaf
  | SApplication (l r : shape)
  | SFunction (b : shape).

Fixpoint shape_of (t : term) : shape :=
  match t with
  | Var _ => SLeaf
  | Application l r => SApplication (shape_of l) (shape_of r)
  | Function _ b => SFunction (shape_of b)
  end.

(** ** Classes of characters and tokens *)

(** [c in '().\\λ='] and [c in ' \t'], as [lex] tests them. *)
Definition is_special (c : N) : bool := str_in [c] (py "().\λ=").
Definition is_blank (c : N) : bool := str_in [c] [32; 9].

(** A character that [lex] adds to the pending symbol. *)
Definition symbol_char (c : N) : bool :=
  negb (is_special c) && negb (is_blank c) && negb (bool_decide (c = 59)).

(** A symbol: one or more symbol characters. *)
Definition is_symbol (token : pystr) : bool :=
  bool_decide (token ≠ []) && forallb symbol_char token.

(** A token: a symbol or one special character. *)
Definition is_token (token : pystr) : bool :=
  is_symbol token
  || match token with
     | [c] => is_special c
     | _ => false
     end.

(** What [lex] yields for the pending symbol when it flushes it. *)
Definition flush (token : pystr) : list pystr :=
  if decide (token ≠ []) then [token] else [].

(** ** Invariants of the parser *)

(** The strings [parse] pushes on the stack: ['('], ['.'], ['\\'] and
    ['λ']. *)
Definition is_stack_token (o : pyobj) : bool :=
  eq_str o (py "(") || eq_str o (py ".") || is_lambda o.

(** Every [str] on the stack is one of them. *)
Definition stack_ok (stack : list pyobj) : Prop :=
  Forall (λ o, is_str o = true → is_stack_token o = true) stack.

(** The modes [parse] goes through: any of RUN, SET and STEP, but never
    RUN and STEP together, and never ERR. *)
Definition valid_mode (m : Z) : Prop := m ∈ [0; 1; 2; 3; 4; 6]%Z.

(** An error message of the parser. *)
Definition is_syntax_error (o : pyobj) : Prop :=
  ∃ msg, o = PyStr (py "Syntax error: " ++ msg).

(** What a round of the loop of [apply_stack] keeps, [n] being the
    number of indices still to visit: the strings on the stack are the
    parser's, [built] is not a string, the stack is as long as the next
    index needs it, and the objects above that index are not strings. *)
Definition round_inv (n : nat) (stack : list pyobj) (built : pyobj)
    (checking : bool) : Prop :=
  stack_ok stack ∧ is_str built = false
  ∧ if checking then length stack = n
    else (n ≤ length stack)%nat ∧ Forall (λ o, is_str o = false) (drop n stack).

Definition flow_ok (n : nat) (f : flow) : Prop :=
  match f with
  | Return value stack =>
    stack_ok stack ∧ (is_str value = true → is_syntax_error value)
  | Continue stack built checking => round_inv n stack built checking
  end.

(** What the token loop of [parse] keeps: the strings on the stack are
    the parser's, the mode is valid, and once SET is on, [var_name] is a
    [Variable]. *)
Definition locals_ok (st : locals) : Prop :=
  stack_ok (stack st) ∧ valid_mode (mode st)
  ∧ (Z.land (mode st) LAMBDA_MODE_SET ≠ 0%Z → is_Variable (var_name st) = true).

Definition parse_flow_ok (f : parse_flow) : Prop :=
  match f with
  | Done (value, m) => is_syntax_error value ∧ m = LAMBDA_MODE_ERR
  | Next st => locals_ok st
  end.

(** The two shapes of what [parse] returns: an error message with the
    mode ERR, or an object that is not a string with a valid mode, which
    in the mode SET is the carrier [Application(Variable, built)]. *)
Definition parse_result_ok (value : pyobj) (m : Z) : Prop :=
  (is_syntax_error value ∧ m = LAMBDA_MODE_ERR)
  ∨ (is_str value = false ∧ valid_mode m
     ∧ (Z.land m LAMBDA_MODE_SET ≠ 0%Z →
        ∃ name built, value = PyApplication (PyVar name) built
                      ∧ is_None built = false ∧ is_str built = false)).

(** ** Printed terms *)

(** A name that can be read back: a symbol other than the two command
    words. *)
Definition is_name (n : pystr) : bool :=
  is_symbol n && negb (bool_decide (n = py "run"))
  && negb (bool_decide (n = py "step")).

(** Every variable and every parameter of the term has such a name. *)
Fixpoint names_ok (t : term) : bool :=
  match t with
  | Var n => is_name n
  | Application l r => names_ok l && names_ok r
  | Function a b => is_name a && names_ok b
  end.

Definition is_abs (t : term) : bool :=
  match t with Function _ _ => true | _ => false end.
Definition is_var (t : term) : bool :=
  match t with Var _ => true | _ => false end.

(** The parameters of the abstractions at the head of a term, and the
    body under them. *)
Fixpoint params (t : term) : list pystr :=
  match t with
  | Function a b => a :: params b
  | _ => []
  end.

Fixpoint core (t : term) : term :=
  match t with
  | Function _ b => core b
  | _ => t
  end.

(** The tokens of the printed form of a term. *)
Fixpoint toks (t : term) : list pystr :=
  match t with
  | Var n => [n]
  | Application l r =>
    (if is_abs l then py "(" :: toks l ++ [py ")"] else toks l)
    ++ (if is_var r then toks r else py "(" :: toks r ++ [py ")"])
  | Function a b =>
    py "λ" :: a :: (if is_abs b then tail (toks b) else py "." :: toks b)
  end.

(** What reading these tokens leaves on the parser's stack: the pending
    objects of a group. *)
Fixpoint seg (t : term) : list pyobj :=
  match t with
  | Var n => [PyVar n]
  | Application l r => (if is_abs l then [of_term l] else seg l) ++ [of_term r]
  | Function a b =>
    PyStr (py "λ") :: PyVar a
    :: (if is_abs b then tail (seg b) else PyStr (py ".") :: seg b)
  end.

(** The same group once [apply_stack] has built its abstraction. *)
Definition residue (t : term) : list pyobj :=
  if is_abs t then [of_term t] else seg t.

(** The rest of the input lets [lex] end a symbol there. *)
Definition delimited (rest : pystr) : bool :=
  match rest with
  | [] => true
  | c :: _ => is_special c || is_blank c
  end.

(** ** The loops of the command loop *)

(** The reduction loop of the command loop, for a mode without the STEP
    bit (with it, every round reads a command from the console):
    [while running and iter < max_iters: iter += 1;
     tree, running = tree.step()].
    The fuel bounds the rounds. *)
Fixpoint run_loop (fuel : nat) (max_iters : Z) (tree : term) (running : bool)
    (iter : Z) : option (term * bool * Z) :=
  match fuel with
  | O => None
  | S fuel' =>
    if running && bool_decide (iter < max_iters)%Z then
      let '(tree', running') := step tree in
      run_loop fuel' max_iters tree' running' (iter + 1)%Z
    else Some (tree, running, iter)
  end.

(** The loop from [running = True], [iter = 0]: the tree, [running] and
    [iter] it ends with.  It makes at most [max_iters] rounds
    ([run_loop_enough]), so the default is never taken. *)
Definition run (max_iters : Z) (tree : term) : term * bool * Z :=
  default (tree, true, 0%Z)
          (run_loop (S (Z.to_nat max_iters)) max_iters tree true 0%Z).

(** The warning [maximum iterations achieved] is printed. *)
Definition warns (max_iters : Z) (tree : term) : bool :=
  bool_decide (max_iters ≤ (run max_iters tree).2)%Z.

(** ['%i' % i]: the decimal digits of an integer. *)
Fixpoint uint_str (u : Decimal.uint) : pystr :=
  match u with
  | Decimal.Nil => []
  | Decimal.D0 u => 48 :: uint_str u
  | Decimal.D1 u => 49 :: uint_str u
  | Decimal.D2 u => 50 :: uint_str u
  | Decimal.D3 u => 51 :: uint_str u
  | Decimal.D4 u => 52 :: uint_str u
  | Decimal.D5 u => 53 :: uint_str u
  | Decimal.D6 u => 54 :: uint_str u
  | Decimal.D7 u => 55 :: uint_str u
  | Decimal.D8 u => 56 :: uint_str u
  | Decimal.D9 u => 57 :: uint_str u
  end.

Definition int_str (i : Z) : pystr :=
  match Z.to_int i with
  | Decimal.Pos u => uint_str u
  | Decimal.Neg u => 45 :: uint_str u
  end.

(** [range(a, b)]. *)
Definition range (a b : Z) : list Z :=
  map (λ k, (a + Z.of_nat k)%Z) (seq 0 (Z.to_nat (b - a))).

(** The loop of the [populate] command over the indices left:
    [if i >= start: saved[Variable('%i' % i)] =
       Function(Variable('s'), Function(Variable('z'), body))]
    and then [body = Application(Variable('s'), body)]. *)
Fixpoint populate_loop (indices : list Z) (start : Z) (body : term)
    (saved : gmap pystr term) : gmap pystr term :=
  match indices with
  | [] => saved
  | i :: indices' =>
    let saved' :=
      if decide (start ≤ i)%Z
      then <[int_str i := Function (py "s") (Function (py "z") body)]> saved
      else saved in
    populate_loop indices' start (Application (Var (py "s")) body) saved'
  end.

(** [populate start end]: from [body = Variable('z')], over
    [range(0, end + 1)]. *)
Definition populate (start end_ : Z) (saved : gmap pystr term)
    : gmap pystr term :=
  populate_loop (range 0 (end_ + 1)) start (Var (py "z")) saved.

(** The Church numeral [λs z.s (s (... z))] with [n] applications. *)
Definition church (n : nat) : term :=
  Function (py "s")
    (Function (py "z") (Nat.iter n (Application (Var (py "s"))) (Var (py "z")))).

(** * Properties *)

(** ** The renaming loop ends *)

Section rename_loop.
Context (replace : term).

Lemma search_longest_name (t : term) (v : pystr) :
  search t v = true → (length v ≤ longest_name t)%nat.
Proof.
  induction t as [n | l IHl r IHr | a b IHb]; simpl; intros H.
  - apply bool_decide_eq_true in H. subst. lia.
  - apply orb_true_iff in H as [H | H]; [apply IHl in H | apply IHr in H]; lia.
  - apply andb_true_iff in H as [_ H]. auto.
Qed.

Lemma rename_loop_enough (fuel : nat) (arg : pystr) :
  (1 ≤ fuel)%nat → (longest_name replace + 2 ≤ fuel + length arg)%nat →
  ∃ k, rename_loop fuel replace arg = Some (arg ++ replicate k 39)
       ∧ search replace (arg ++ replicate k 39) = false
       ∧ (search replace arg = true ↔ (0 < k)%nat).
Proof.
  revert arg. induction fuel as [| fuel IH]; intros arg H1 H2; [lia |].
  simpl. destruct (search replace arg) eqn:Hs.
  - apply search_longest_name in Hs as Hlen.
    destruct (IH (arg ++ prime)) as (k & Hk & Hfree & _).
    + lia.
    + rewrite length_app. simpl. lia.
    + exists (S k). change prime with [39] in *.
      rewrite <- app_assoc in Hk, Hfree. simpl in Hk, Hfree.
      split; [exact Hk |]. split; [exact Hfree |]. split; intros; [lia | done].
  - exists 0%nat. simpl. rewrite app_nil_r. split; [done |]. split; [done |].
    split; intros; [done | lia].
Qed.

Lemma fresh_arg_spec (arg : pystr) :
  ∃ k, fresh_arg replace arg = arg ++ replicate k 39
       ∧ search replace (fresh_arg replace arg) = false
       ∧ (search replace arg = true ↔ (0 < k)%nat).
Proof.
  unfold fresh_arg.
  destruct (rename_loop_enough (S (S (longest_name replace))) arg)
    as (k & -> & Hfree & Hk); [lia | lia |].
  exists k. simpl. done.
Qed.

Lemma fresh_arg_not_free (arg : pystr) :
  search replace (fresh_arg replace arg) = false.
Proof. destruct (fresh_arg_spec arg) as (k & _ & H & _). exact H. Qed.

Lemma fresh_arg_unchanged (arg : pystr) :
  search replace arg = false → fresh_arg replace arg = arg.
Proof.
  intros Hs. destruct (fresh_arg_spec arg) as (k & -> & _ & Hk).
  destruct k as [| k]; [by rewrite app_nil_r |].
  assert (search replace arg = true) by (apply Hk; lia). congruence.
Qed.

Lemma fresh_arg_renamed (arg : pystr) :
  fresh_arg replace arg ≠ arg →
  search replace arg = true
  ∧ ∃ k, fresh_arg replace arg = arg ++ replicate (S k) 39.
Proof.
  intros Hne. destruct (search replace arg) eqn:Hs.
  - split; [done |]. destruct (fresh_arg_spec arg) as (k & Hk & _ & Hpos).
    destruct k as [| k]; [apply Hpos in Hs; lia |]. eauto.
  - by apply fresh_arg_unchanged in Hs.
Qed.
End rename_loop.

(** ** [substitute] returns: the equations of the method *)

Lemma substitute_fuel_enough (fuel : nat) (self : term) (find : pystr) (replace : term) :
  (height self < fuel)%nat →
  ∃ t, substitute_fuel fuel self find replace = Some t
       ∧ ((∃ v, replace = Var v) → height t = height self).
Proof.
  revert self find replace.
  induction fuel as [| fuel IH]; intros self find replace Hh; [lia |].
  destruct self as [n | l r | a b]; simpl in *.
  - eexists; split; [done |]. intros [v ->]. by case_decide.
  - destruct (IH l find replace) as (l' & -> & Hl); [lia |].
    destruct (IH r find replace) as (r' & -> & Hr); [lia |].
    simpl. eexists; split; [done |]. intros Hv. simpl. rewrite Hl, Hr; done.
  - case_decide; [eexists; split; done |].
    assert (∃ body, (if decide (fresh_arg replace a ≠ a)
                     then substitute_fuel fuel b a (Var (fresh_arg replace a))
                     else Some b) = Some body ∧ height body = height b)
      as (body & -> & Hbody).
    { case_decide; [| eauto].
      destruct (IH b a (Var (fresh_arg replace a))) as (body & -> & Hb); [lia |].
      exists body. split; [done |]. apply Hb. eauto. }
    simpl. destruct (IH body find replace) as (body' & -> & Hb'); [lia |].
    simpl. eexists; split; [done |]. intros Hv. simpl. rewrite Hb'; [lia | done].
Qed.

Lemma substitute_fuel_mono (fuel fuel' : nat) (self : term) (find : pystr)
    (replace t : term) :
  substitute_fuel fuel self find replace = Some t → (fuel ≤ fuel')%nat →
  substitute_fuel fuel' self find replace = Some t.
Proof.
  revert fuel' self find replace t.
  induction fuel as [| fuel IH]; intros fuel' self find replace t H Hle; [done |].
  destruct fuel' as [| fuel']; [lia |].
  destruct self as [n | l r | a b]; simpl in *.
  - done.
  - destruct (substitute_fuel fuel l find replace) as [l' |] eqn:Hl; [| done].
    destruct (substitute_fuel fuel r find replace) as [r' |] eqn:Hr; [| done].
    rewrite (IH fuel' _ _ _ _ Hl), (IH fuel' _ _ _ _ Hr) by lia. done.
  - case_decide; [done |].
    destruct (decide (fresh_arg replace a ≠ a)).
    + destruct (substitute_fuel fuel b a _) as [body |] eqn:Hb; [| done].
      rewrite (IH fuel' _ _ _ _ Hb) by lia. simpl in *.
      destruct (substitute_fuel fuel body find replace) as [body' |] eqn:Hb';
        [| done].
      rewrite (IH fuel' _ _ _ _ Hb') by lia. done.
    + simpl in *.
      destruct (substitute_fuel fuel b find replace) as [body' |] eqn:Hb';
        [| done].
      rewrite (IH fuel' _ _ _ _ Hb') by lia. done.
Qed.

(** With fuel above the height the bounded function is the method. *)
Lemma substitute_fuel_eq (fuel : nat) (self : term) (find : pystr) (replace : term) :
  (height self < fuel)%nat →
  substitute_fuel fuel self find replace = Some (substitute self find replace).
Proof.
  intros Hh. unfold substitute.
  destruct (substitute_fuel_enough (S (height self)) self find replace)
    as (t & Ht & _); [lia |].
  rewrite Ht. simpl. eapply substitute_fuel_mono; [exact Ht | lia].
Qed.

Lemma height_rename (self : term) (find v : pystr) :
  height (substitute self find (Var v)) = height self.
Proof.
  destruct (substitute_fuel_enough (S (height self)) self find (Var v))
    as (t & Ht & Hheight); [lia |].
  rewrite substitute_fuel_eq in Ht by lia. injection Ht as ->. eauto.
Qed.

(** [x[x := R] => R] and [y[x := R] => y]. *)
Lemma substitute_Var (name find : pystr) (replace : term) :
  substitute (Var name) find replace
  = if decide (name = find) then replace else Var name.
Proof. unfold substitute. simpl. by case_decide. Qed.

Lemma substitute_fuel_Application (fuel : nat) (l r : term) (find : pystr)
    (replace : term) :
  substitute_fuel (S fuel) (Application l r) find replace
  = l' ← substitute_fuel fuel l find replace;
    r' ← substitute_fuel fuel r find replace;
    Some (Application l' r').
Proof. reflexivity. Qed.

Lemma substitute_fuel_Function (fuel : nat) (self_arg : pystr) (self_body : term)
    (find : pystr) (replace : term) :
  substitute_fuel (S fuel) (Function self_arg self_body) find replace
  = if decide (self_arg = find) then Some (Function self_arg self_body)
    else
      let arg := fresh_arg replace self_arg in
      body ← (if decide (arg ≠ self_arg)
              then substitute_fuel fuel self_body self_arg (Var arg)
              else Some self_body);
      body' ← substitute_fuel fuel body find replace;
      Some (Function arg body').
Proof. reflexivity. Qed.

(** [(M N)[x := R] => (M[x := R] N[x := R])]. *)
Lemma substitute_Application (l r : term) (find : pystr) (replace : term) :
  substitute (Application l r) find replace
  = Application (substitute l find replace) (substitute r find replace).
Proof.
  unfold substitute at 1. rewrite substitute_fuel_Application.
  rewrite !substitute_fuel_eq by (simpl; lia). done.
Qed.

(** The [Function] case, line by line. *)
Lemma substitute_Function (self_arg : pystr) (self_body : term) (find : pystr)
    (replace : term) :
  substitute (Function self_arg self_body) find replace
  = if decide (self_arg = find) then Function self_arg self_body
    else
      let arg := fresh_arg replace self_arg in
      let body := if decide (arg ≠ self_arg)
                  then substitute self_body self_arg (Var arg)
                  else self_body in
      Function arg (substitute body find replace).
Proof.
  unfold substitute at 1. rewrite substitute_fuel_Function.
  case_decide; [done |]. cbv zeta. case_decide.
  - rewrite substitute_fuel_eq by (simpl; lia). cbn [mbind option_bind].
    rewrite substitute_fuel_eq by (rewrite height_rename; simpl; lia). done.
  - cbn [mbind option_bind].
    rewrite substitute_fuel_eq by (simpl; lia). done.
Qed.

(** ** Reduction *)

(** A step that reports no change returns the term it was called on. *)
Lemma step_unchanged (t t' : term) : step t = (t', false) → t' = t.
Proof.
  revert t'. induction t as [n | l IHl r IHr | a b IHb]; intros t' H.
  - by injection H as <-.
  - simpl in H. destruct (step r) as [r' cr] eqn:Hr.
    destruct l as [n | l1 l2 | la lb].
    + simpl in H. injection H as <- ->. by rewrite (IHr r').
    + destruct (step (Application l1 l2)) as [l' cl] eqn:Hl.
      destruct cl; [done |]. injection H as <- ->.
      by rewrite (IHl l'), (IHr r').
    + done.
  - simpl in H. destruct (step b) as [b' cb] eqn:Hb.
    injection H as <- ->. by rewrite (IHb b').
Qed.

(** C4: a term on which [step] reports [changed = False] is a fixed
    point of [step]: the term returned equals the one stepped, and
    stepping it again returns it with [changed = False]. *)
Theorem step_normal_form_fixed (t t' : term) :
  step t = (t', false) → step t' = (t', false).
Proof.
  intros H. pose proof (step_unchanged _ _ H) as ->. exact H.
Qed.

Lemma step_normal_form_fixed_witness :
  step (Application Ex.x Ex.id_y) = (Application Ex.x Ex.id_y, false).
Proof.
  apply (step_normal_form_fixed (Application Ex.x Ex.id_y)). reflexivity.
Defined.

(** C3, as stated, fails on its first example: [(λx.x x) ((λy.y) z)]
    does not step to [(λx.x x) z]. *)
Lemma step_outer_redex_not_argument :
  step (Application Ex.dup_x (Application Ex.id_y Ex.z))
  ≠ (Application Ex.dup_x Ex.z, true).
Proof. vm_compute. discriminate. Qed.

(** C3, amended: the function side of [(λx.x x) ((λy.y) z)] is an
    abstraction, so the step is the beta reduction of the whole term and
    yields [((λy.y) z) ((λy.y) z)]; and [((λx.x) a) ((λy.y) b)] steps to
    [a ((λy.y) b)].  Both report [changed = True]. *)
Theorem step_normal_order_examples :
  step (Application Ex.dup_x (Application Ex.id_y Ex.z))
  = (Application (Application Ex.id_y Ex.z) (Application Ex.id_y Ex.z), true)
  ∧ step (Application (Application Ex.id_x Ex.a) (Application Ex.id_y Ex.b))
    = (Application Ex.a (Application Ex.id_y Ex.b), true).
Proof. split; reflexivity. Qed.

(** ** The saved environment *)

(** Under an abstraction whose parameter is a key of [saved] nothing is
    rewritten. *)
Lemma unpack_saved_shadowed (saved : gmap pystr term) (arg : pystr) (body : term) :
  is_Some (saved !! arg) →
  unpack_saved (Function arg body) saved = Function arg body.
Proof. intros H. simpl. by rewrite decide_True. Qed.

Lemma unpack_saved_hit (saved : gmap pystr term) (name : pystr) (v : term) :
  saved !! name = Some v → unpack_saved (Var name) saved = v.
Proof. intros H. simpl. by rewrite H. Qed.

Lemma unpack_saved_miss (saved : gmap pystr term) (name : pystr) :
  saved !! name = None → unpack_saved (Var name) saved = Var name.
Proof. intros H. simpl. by rewrite H. Qed.

(** An occurrence of a saved variable that lies under no abstraction
    whose parameter is a key is replaced by the stored value. *)
Lemma unpack_saved_occurrence (saved : gmap pystr term) (t : term)
    (pos : list dir) (name : pystr) (v : term) :
  subterm_at t pos = Some (Var name) → saved !! name = Some v →
  Forall (λ q, saved !! q = None) (binders_above t pos) →
  subterm_at (unpack_saved t saved) pos = Some v.
Proof.
  revert pos. induction t as [n | l IHl r IHr | arg body IHbody];
    intros [| [] pos] Hpos Hv Hkeys; simpl in Hpos; try done.
  - injection Hpos as ->. cbn [unpack_saved]. rewrite Hv. by destruct v.
  - cbn [unpack_saved subterm_at]. by apply IHl.
  - cbn [unpack_saved subterm_at]. by apply IHr.
  - cbn [binders_above] in Hkeys. apply Forall_cons in Hkeys as [Harg Hkeys].
    cbn [unpack_saved]. rewrite decide_False by (rewrite Harg; by intros [? ?]).
    cbn [subterm_at]. by apply IHbody.
Qed.

(** With one saved variable the method replaces the free occurrences of
    that variable, all of them and nothing else. *)
Lemma unpack_saved_singleton (x : pystr) (v t : term) :
  unpack_saved t {[ x := v ]} = replace_free x v t.
Proof.
  induction t as [n | l IHl r IHr | arg body IHbody]; cbn [unpack_saved replace_free].
  - destruct (decide (n = x)) as [-> | Hne].
    + by rewrite lookup_singleton_eq.
    + by rewrite lookup_singleton_ne.
  - by rewrite IHl, IHr.
  - destruct (decide (arg = x)) as [-> | Hne].
    + rewrite decide_True; [done |]. rewrite lookup_singleton_eq. eauto.
    + rewrite decide_False; [by rewrite IHbody |].
      rewrite lookup_singleton_ne by done. by intros [? ?].
Qed.

(** C7: [unpack_saved] returns an abstraction whose parameter is a key of
    the environment as it is, whatever its body and the other keys;  it
    replaces an occurrence of a saved variable that is under no such
    abstraction by the stored value;  with the environment [{x: v}] it
    replaces every free occurrence of [x] by [v] and nothing else;  so
    with [{x: a}] it returns [λx.x] as it is and turns [x y] into [a y]. *)
Theorem unpack_saved_rules :
  (∀ (saved : gmap pystr term) (arg : pystr) (w body : term),
     unpack_saved (Function arg body) (<[arg := w]> saved) = Function arg body)
  ∧ (∀ (saved : gmap pystr term) (t : term) (pos : list dir) (name : pystr)
       (v : term),
       subterm_at t pos = Some (Var name) → saved !! name = Some v →
       Forall (λ q, saved !! q = None) (binders_above t pos) →
       subterm_at (unpack_saved t saved) pos = Some v)
  ∧ (∀ (x : pystr) (v t : term),
       unpack_saved t {[ x := v ]} = replace_free x v t)
  ∧ unpack_saved Ex.id_x {[ py "x" := Ex.a ]} = Ex.id_x
  ∧ unpack_saved (Application Ex.x Ex.y) {[ py "x" := Ex.a ]}
    = Application Ex.a Ex.y.
Proof.
  split; [| split; [| split; [| split]]].
  - intros saved arg w body. apply unpack_saved_shadowed.
    rewrite lookup_insert_eq. eauto.
  - apply unpack_saved_occurrence.
  - apply unpack_saved_singleton.
  - apply unpack_saved_shadowed. rewrite lookup_singleton_eq. eauto.
  - unfold Ex.x, Ex.y. cbn [unpack_saved].
    rewrite lookup_singleton_eq, lookup_singleton_ne; done.
Qed.

(** ** Equivalence *)

(** Abstractions with equal parameter names are compared under the
    dictionary they were given. *)
Lemma is_eta_equiv_same_arg (arg : pystr) (body other_body : term)
    (var_dict : gmap pystr pystr) :
  is_eta_equiv (Function arg body) (Function arg other_body) var_dict
  = is_eta_equiv body other_body var_dict.
Proof. simpl. by rewrite decide_False by (intros H; by apply H). Qed.

Lemma is_eta_equiv_other_arg (arg other_arg : pystr) (body other_body : term)
    (var_dict : gmap pystr pystr) :
  arg ≠ other_arg →
  is_eta_equiv (Function arg body) (Function other_arg other_body) var_dict
  = is_eta_equiv body other_body (<[arg := other_arg]> var_dict).
Proof. intros H. simpl. by rewrite decide_True. Qed.

(** C10: from the empty dictionary, [λx.λy.x] and [λy.λy.y] are found
    equivalent: the outer abstractions record [x -> y], the inner ones
    (both [λy]) keep that entry, and the bodies [x] and [y] correspond
    under it. *)
Theorem is_eta_equiv_rebinding :
  is_eta_equiv Ex.const_xy Ex.const_yy ∅ = true
  ∧ is_eta_equiv Ex.const_xy Ex.const_yy ∅
    = is_eta_equiv Ex.x Ex.y {[ py "x" := py "y" ]}.
Proof.
  assert (is_eta_equiv Ex.const_xy Ex.const_yy ∅
          = is_eta_equiv Ex.x Ex.y {[ py "x" := py "y" ]}) as Heq.
  { unfold Ex.const_xy, Ex.const_yy.
    rewrite is_eta_equiv_other_arg by done.
    by rewrite is_eta_equiv_same_arg. }
  split; [| exact Heq]. rewrite Heq.
  cbn [is_eta_equiv Ex.x Ex.y]. rewrite lookup_singleton_eq.
  by rewrite (bool_decide_eq_true_2 (py "y" = py "y")), orb_true_r.
Qed.

(** ** The parser on particular inputs *)

Lemma error_result_intro (msg : pystr) :
  msg ≠ [] → error_result (Returns (PyStr msg, LAMBDA_MODE_ERR)).
Proof. intros H. exists msg, LAMBDA_MODE_ERR. done. Qed.

(** C5: each of [)], [(a], [λ.x], [x =] and [run step] makes [parse]
    return, without an exception, a message that is not empty together
    with the error mode. *)
Theorem parse_malformed :
  Forall (λ input, error_result (parse input))
         [py ")"; py "(a"; py "λ.x"; py "x ="; py "run step"]
  ∧ parse (py ")")
    = Returns (PyStr (py "Syntax error: unexpected ')'"), LAMBDA_MODE_ERR)
  ∧ parse (py "(a")
    = Returns (PyStr (py "Syntax error: unmatched '('"), LAMBDA_MODE_ERR)
  ∧ parse (py "λ.x")
    = Returns (PyStr (py "Syntax error: 'λ' followed by '.'"), LAMBDA_MODE_ERR)
  ∧ parse (py "x =")
    = Returns (PyStr (py "Syntax error: unexpected '='"), LAMBDA_MODE_ERR)
  ∧ parse (py "run step")
    = Returns (PyStr (py "Syntax error: unexpected 'run'"), LAMBDA_MODE_ERR).
Proof.
  assert (∀ input msg,
    parse input = Returns (PyStr msg, LAMBDA_MODE_ERR) → msg ≠ [] →
    error_result (parse input)) as Herr.
  { intros input msg -> Hmsg. by apply error_result_intro. }
  split.
  - repeat apply Forall_cons_2; try apply Forall_nil_2;
      (eapply Herr; [vm_compute; reflexivity | discriminate]).
  - repeat split; vm_compute; reflexivity.
Qed.

(** C6: [λx y.x] and [λx.λy.x] parse to the same tree, the nested
    abstraction [Function(x, Function(y, x))], both with mode NONE. *)
Theorem parse_multi_argument_sugar :
  parse (py "λx y.x") = Returns (of_term Ex.const_xy, LAMBDA_MODE_NONE)
  ∧ parse (py "λx.λy.x") = Returns (of_term Ex.const_xy, LAMBDA_MODE_NONE).
Proof. split; vm_compute; reflexivity. Qed.

(** C8: the empty string and [()] both parse to [None] with mode NONE. *)
Theorem parse_empty :
  parse (py "") = Returns (PyNone, LAMBDA_MODE_NONE)
  ∧ parse (py "()") = Returns (PyNone, LAMBDA_MODE_NONE).
Proof. split; vm_compute; reflexivity. Qed.

(** C9: [x = y = z] parses without error to the carrier
    [Application(y, z)] with mode SET; the first target [x] is gone. *)
Theorem parse_double_binding :
  parse (py "x = y = z")
  = Returns (of_term (Application Ex.y Ex.z), LAMBDA_MODE_SET)
  ∧ Z.land LAMBDA_MODE_SET LAMBDA_MODE_ERR = 0%Z.
Proof. split; vm_compute; reflexivity. Qed.

(** ** Substitution and the binders it passes *)

Lemma subterm_at_Var (name : pystr) (pos : list dir) (a0 : pystr) (b0 : term) :
  subterm_at (Var name) pos ≠ Some (Function a0 b0).
Proof. by destruct pos as [| [] pos]. Qed.

Lemma subterm_at_nil (t : term) : subterm_at t [] = Some t.
Proof. by destruct t. Qed.

Lemma call_at_nil (M : term) (x : pystr) (R : term) : call_at M x R [] = Some M.
Proof. by destruct M. Qed.

Lemma subterm_at_app (t : term) (pos rest : list dir) :
  subterm_at t (pos ++ rest) = subterm_at t pos ≫= λ t', subterm_at t' rest.
Proof.
  revert t. induction pos as [| d pos IH]; intros t; [by destruct t |].
  destruct d, t; cbn [app subterm_at]; try done; apply IH.
Qed.

(** Every abstraction of [M] is still an abstraction, at the same
    position, in [M.substitute(x, R)].  By induction on a bound of the
    height, since the method recurses on the renamed body. *)
Lemma substitute_keeps_abstractions (n : nat) (M : term) (x : pystr) (R : term)
    (pos : list dir) (a0 : pystr) (b0 : term) :
  (height M < n)%nat →
  subterm_at M pos = Some (Function a0 b0) →
  ∃ p b, subterm_at (substitute M x R) pos = Some (Function p b).
Proof.
  revert M x R pos a0 b0.
  induction n as [| n IH]; intros M x R pos a0 b0 Hh Hpos; [lia |].
  destruct M as [name | l r | a body0].
  - by apply subterm_at_Var in Hpos.
  - rewrite substitute_Application. simpl in Hh.
    destruct pos as [| [] pos]; simpl in *; try done.
    + apply (IH l x R pos a0 b0); [lia | done].
    + apply (IH r x R pos a0 b0); [lia | done].
  - rewrite substitute_Function. simpl in Hh. case_decide as Hshadow.
    + eauto.
    + cbv zeta. set (arg := fresh_arg R a).
      set (body := if decide (arg ≠ a) then substitute body0 a (Var arg)
                   else body0).
      assert (height body = height body0) as Hbody.
      { unfold body. case_decide; [apply height_rename | done]. }
      destruct pos as [| [] pos]; simpl in *; try done; [eauto |].
      assert (∃ a1 b1, subterm_at body pos = Some (Function a1 b1))
        as (a1 & b1 & Hpos').
      { unfold body. case_decide; [| eauto].
        apply (IH body0 a (Var arg) pos a0 b0); [lia | done]. }
      apply (IH body x R pos a1 b1); [lia | done].
Qed.

(** The call made for the node at [pos] returns what the result has at
    [pos], and the abstractions the calls went through to get there have
    parameters that are not free in [R]. *)
Lemma call_at_result (M : term) (x : pystr) (R : term) (pos : list dir) (t : term) :
  call_at M x R pos = Some t →
  subterm_at (substitute M x R) pos = Some (substitute t x R)
  ∧ Forall (λ q, search R q = false) (binders_above (substitute M x R) pos).
Proof.
  revert M. induction pos as [| d pos IH]; intros M Hcall.
  - rewrite call_at_nil in Hcall. injection Hcall as ->.
    rewrite subterm_at_nil. by destruct (substitute t x R).
  - destruct d, M as [name | l r | a body0]; cbn [call_at] in Hcall; try done.
    + rewrite substitute_Application. cbn [subterm_at binders_above]. by apply IH.
    + rewrite substitute_Application. cbn [subterm_at binders_above]. by apply IH.
    + rewrite substitute_Function. case_decide as Hshadow; [done |].
      cbv zeta in Hcall |- *. cbn [subterm_at binders_above].
      destruct (IH _ Hcall) as [Hsub Hbinders]. split; [done |].
      constructor; [apply fresh_arg_not_free | done].
Qed.

(** An abstraction of [M] is called, as an abstraction, unless it lies
    under an abstraction that returned itself. *)
Lemma call_at_abstraction (M : term) (x : pystr) (R : term) (pos : list dir)
    (a0 : pystr) (b0 : term) :
  subterm_at M pos = Some (Function a0 b0) →
  (∃ a b, call_at M x R pos = Some (Function a b))
  ∨ (call_at M x R pos = None
     ∧ ∃ pos0 rest b, pos = pos0 ++ rest
                      ∧ call_at M x R pos0 = Some (Function x b)).
Proof.
  revert M a0 b0. induction pos as [| d pos IH]; intros M a0 b0 Hpos.
  - rewrite subterm_at_nil in Hpos. injection Hpos as ->. left.
    exists a0, b0. apply call_at_nil.
  - destruct d, M as [name | l r | a body0]; cbn [subterm_at] in Hpos; try done.
    + destruct (IH _ _ _ Hpos) as [Hcall | [Hnone (pos0 & rest & b & -> & Hstop)]];
        [by left | right].
      split; [done |]. by exists (GoLeft :: pos0), rest, b.
    + destruct (IH _ _ _ Hpos) as [Hcall | [Hnone (pos0 & rest & b & -> & Hstop)]];
        [by left | right].
      split; [done |]. by exists (GoRight :: pos0), rest, b.
    + cbn [call_at]. case_decide as Hshadow.
      * subst a. right. split; [done |]. by exists [], (GoBody :: pos), body0.
      * cbv zeta. set (arg := fresh_arg R a).
        set (body := if decide (arg ≠ a) then substitute body0 a (Var arg)
                     else body0).
        assert (∃ a1 b1, subterm_at body pos = Some (Function a1 b1))
          as (a1 & b1 & Hpos').
        { unfold body. case_decide; [| eauto].
          apply (substitute_keeps_abstractions (S (height body0)) body0 a
                   (Var arg) pos a0 b0); [lia | done]. }
        destruct (IH _ _ _ Hpos')
          as [Hcall | [Hnone (pos0 & rest & b & -> & Hstop)]]; [by left | right].
        split; [done |]. exists (GoBody :: pos0), rest, b. split; [done |].
        cbn [call_at]. by rewrite decide_False.
Qed.

(** C1, as stated, fails: substituting [y y''] for [x] in [λy.λx.λy'.y]
    gives [λy'.λx.λy''.y'], whose innermost abstraction has the parameter
    [y''], free in [y y''], where the term had [λy'].  The substitution
    does not reach it: [λx] returned itself. *)
Lemma substitute_renames_under_shadow :
  substitute Ex.shadowed (py "x") Ex.y_y''
  = Function (py "y'") (Function (py "x") (Function (py "y''") (Var (py "y'"))))
  ∧ reached Ex.shadowed (py "x") Ex.y_y'' [GoBody; GoBody] = false
  ∧ ¬ no_capture_as_stated Ex.shadowed (py "x") Ex.y_y''.
Proof.
  split; [vm_compute; reflexivity |]. split; [vm_compute; reflexivity |].
  intros Hclaim.
  destruct (Hclaim [GoBody; GoBody] (py "y'") Ex.y (py "y''") (Var (py "y'")))
    as [Hfree | Heq]; [vm_compute; reflexivity | vm_compute; reflexivity | |].
  - vm_compute in Hfree. discriminate.
  - vm_compute in Heq. discriminate.
Qed.

(** C1, amended: take an abstraction of [M], at [pos].  If the
    substitution reaches it, that is if [substitute(x, R)] is called on
    it, in the form the alpha-conversions around it gave it, with a
    parameter other than [x], then [M.substitute(x, R)] has at [pos] an
    abstraction whose parameter is not free in [R], and so are the
    parameters of all abstractions around it: no free variable of [R] is
    bound there.  If not, it is at or under an abstraction on which
    [substitute(x, R)] is called with the parameter [x]; that call returns
    the abstraction as it is, so the result has at [pos] what this
    abstraction has there. *)
Theorem substitute_binders_not_free (M : term) (x : pystr) (R : term)
    (pos : list dir) (a0 : pystr) (b0 : term) :
  subterm_at M pos = Some (Function a0 b0) →
  (reached M x R pos = true →
   ∃ p b,
     subterm_at (substitute M x R) pos = Some (Function p b)
     ∧ search R p = false
     ∧ Forall (λ q, search R q = false) (binders_above (substitute M x R) pos))
  ∧ (reached M x R pos = false →
     ∃ pos0 rest b,
       pos = pos0 ++ rest
       ∧ call_at M x R pos0 = Some (Function x b)
       ∧ subterm_at (substitute M x R) pos0 = Some (Function x b)
       ∧ subterm_at (substitute M x R) pos = subterm_at (Function x b) rest).
Proof.
  intros Hpos. unfold reached.
  destruct (call_at_abstraction M x R pos a0 b0 Hpos)
    as [(a & b & Hcall) | [Hnone (pos0 & rest & b & -> & Hstop)]].
  - rewrite Hcall. destruct (call_at_result _ _ _ _ _ Hcall) as [Hsub Hbinders].
    rewrite substitute_Function in Hsub. split.
    + intros Hne. apply bool_decide_eq_true in Hne.
      rewrite decide_False in Hsub by done. cbv zeta in Hsub.
      eexists _, _. split; [exact Hsub |]. split; [| done].
      apply fresh_arg_not_free.
    + intros Heq. apply bool_decide_eq_false in Heq.
      assert (a = x) as -> by (by destruct (decide (a = x)); [| exfalso; auto]).
      rewrite decide_True in Hsub by done.
      exists pos, [], b. rewrite app_nil_r. done.
  - rewrite Hnone. split; [done |]. intros _.
    destruct (call_at_result _ _ _ _ _ Hstop) as [Hsub _].
    rewrite substitute_Function, decide_True in Hsub by done.
    exists pos0, rest, b. split; [done |]. split; [done |]. split; [done |].
    by rewrite subterm_at_app, Hsub.
Qed.

(** The abstraction [λz] of [λy.λz.y'], with [y z] for [y']: the outer
    parameter is renamed to [y'], the substitution goes on under it, and
    the result is [λy'.λz'.(y z)]. *)
Lemma substitute_binders_not_free_witness :
  reached Ex.const_y' (py "y'") Ex.y_z [GoBody] = true
  ∧ substitute Ex.const_y' (py "y'") Ex.y_z
    = Function (py "y'") (Function (py "z'") Ex.y_z)
  ∧ ∃ p b,
      subterm_at (substitute Ex.const_y' (py "y'") Ex.y_z) [GoBody]
      = Some (Function p b)
      ∧ search Ex.y_z p = false
      ∧ Forall (λ q, search Ex.y_z q = false)
               (binders_above (substitute Ex.const_y' (py "y'") Ex.y_z) [GoBody]).
Proof.
  split; [vm_compute; reflexivity |]. split; [vm_compute; reflexivity |].
  apply (substitute_binders_not_free Ex.const_y' (py "y'") Ex.y_z [GoBody]
           (py "z") (Var (py "y'"))); [reflexivity | vm_compute; reflexivity].
Defined.

(** ** The name the renaming loop picks *)

(** X23: what the renaming loop guarantees: the name of a renamed
    parameter is the old one followed by prime markers, and it is not
    free in the replacement.  The name being substituted plays no part in
    the choice. *)
Lemma substitute_fresh_name (a : pystr) (b : term) (x : pystr) (R : term)
    (p : pystr) (body' : term) :
  substitute (Function a b) x R = Function p body' → p ≠ a →
  search R p = false ∧ ∃ k, p = a ++ replicate (S k) 39.
Proof.
  rewrite substitute_Function. case_decide as Hshadow.
  - intros [= <- <-] Hne. done.
  - cbv zeta. intros [= <- <-] Hne.
    pose proof (fresh_arg_not_free R a) as Hfree.
    by destruct (fresh_arg_renamed R a Hne) as [_ Hk].
Qed.

Lemma substitute_fresh_name_witness :
  search Ex.y (py "y'") = false ∧ ∃ k, py "y'" = py "y" ++ replicate (S k) 39.
Proof.
  apply (substitute_fresh_name (py "y") Ex.y (py "x") Ex.y
           (py "y'") (Var (py "y'"))).
  - reflexivity.
  - discriminate.
Defined.

(** C2: the code at the failing input.  The text [(λy' y.y y') y] parses
    to a redex whose step substitutes [y] for [y'] in [λy.y y'].  The
    renaming loop picks [y'], the very name being substituted, so the
    claim fails there;  the method returns [λy'.y y], in which the
    occurrence that was bound is free, and which [is_eta_equiv] tells
    apart from [λy''.y'' y]. *)
Theorem substitute_fresh_name_is_target :
  parse (py "(λy' y.y y') y") = Returns (of_term Ex.redex_y', LAMBDA_MODE_NONE)
  ∧ step Ex.redex_y' = (substitute Ex.y_y' (py "y'") Ex.y, true)
  ∧ substitute Ex.y_y' (py "y'") Ex.y
    = Function (py "y'") (Application Ex.y Ex.y)
  ∧ ¬ fresh_name_as_stated (py "y") (Application Ex.y (Var (py "y'")))
        (py "y'") Ex.y
  ∧ is_eta_equiv (substitute Ex.y_y' (py "y'") Ex.y)
                 (Function (py "y''") (Application (Var (py "y''")) Ex.y)) ∅
    = false.
Proof.
  split; [vm_compute; reflexivity |]. split; [vm_compute; reflexivity |].
  split; [vm_compute; reflexivity |]. split; [| vm_compute; reflexivity].
  intros Hclaim.
  destruct (Hclaim (py "y'") (Application Ex.y Ex.y)) as [_ Hne];
    [vm_compute; reflexivity | discriminate |].
  by apply Hne.
Qed.

(** * Further properties of the term methods *)

(** Induction on the height of a term, for the methods that recurse on
    a renamed body. *)
Lemma term_height_ind (P : term → Prop) :
  (∀ M, (∀ M', (height M' < height M)%nat → P M') → P M) → ∀ M, P M.
Proof.
  intros Hstep M. remember (S (height M)) as n eqn:Hn.
  assert (height M < n)%nat as Hlt by lia. clear Hn. revert M Hlt.
  induction n as [| n IH]; intros M Hlt; [lia |].
  apply Hstep. intros M' HM'. apply IH. lia.
Qed.

(** ** [substitute] and free variables *)

(** X1: substituting a variable for itself returns the term unchanged. *)
Theorem substitute_self (M : term) (x : pystr) :
  substitute M x (Var x) = M.
Proof.
  induction M as [name | l IHl r IHr | a b IHb].
  - rewrite substitute_Var. by case_decide; subst.
  - by rewrite substitute_Application, IHl, IHr.
  - rewrite substitute_Function. case_decide as Ha; [done |]. cbv zeta.
    rewrite fresh_arg_unchanged.
    + rewrite decide_False by (intros H; by apply H). by rewrite IHb.
    + simpl. apply bool_decide_eq_false. congruence.
Qed.

(** X2: if the target is not free in the replacement, it is not free in
    the result of the substitution. *)
Theorem substitute_target_gone (M : term) (x : pystr) (R : term) :
  search R x = false → search (substitute M x R) x = false.
Proof.
  intros HR. induction M as [M IH] using term_height_ind.
  destruct M as [name | l r | a b].
  - rewrite substitute_Var. case_decide; [done |]. simpl.
    by apply bool_decide_eq_false.
  - rewrite substitute_Application. simpl.
    rewrite !IH by (simpl; lia). done.
  - rewrite substitute_Function. case_decide as Ha.
    + simpl. subst a. rewrite bool_decide_eq_false_2; [done |].
      intros H; by apply H.
    + cbv zeta. simpl. rewrite IH; [apply andb_false_r |].
      case_decide; [rewrite height_rename |]; simpl; lia.
Qed.

Lemma substitute_target_gone_witness :
  search Ex.y (py "x") = false
  ∧ search (substitute (Application Ex.x Ex.id_x) (py "x") Ex.y) (py "x") = false.
Proof.
  split; [reflexivity |].
  apply (substitute_target_gone (Application Ex.x Ex.id_x) (py "x") Ex.y).
  reflexivity.
Defined.

(** A variable free in the result of a substitution was free in the
    replacement, or free in the term and not the one replaced. *)
Lemma search_substitute (M : term) (x : pystr) (R : term) (v : pystr) :
  search (substitute M x R) v = true →
  (search M v = true ∧ v ≠ x) ∨ search R v = true.
Proof.
  revert x R. induction M as [M IH] using term_height_ind. intros x R.
  destruct M as [name | l r | a b].
  - rewrite substitute_Var. case_decide as Hn; [by right |].
    simpl. intros H. apply bool_decide_eq_true in H. subst. left.
    split; [by apply bool_decide_eq_true | done].
  - rewrite substitute_Application. simpl. intros H.
    apply orb_true_iff in H as [H | H]; apply IH in H; simpl; try lia;
      destruct H as [[H Hne] | H]; auto; left; rewrite H;
      auto using orb_true_r.
  - rewrite substitute_Function. case_decide as Ha.
    + subst a. simpl. intros H. left. split; [done |].
      apply andb_true_iff in H as [H _]. apply bool_decide_eq_true in H.
      congruence.
    + cbv zeta. simpl. intros H. apply andb_true_iff in H as [Hv H].
      apply bool_decide_eq_true in Hv.
      apply IH in H; [| case_decide; [rewrite height_rename |]; simpl; lia].
      destruct H as [[H Hne] | H]; [| by right]. left. split; [| done].
      case_decide as Hren.
      * apply IH in H; [| simpl; lia].
        destruct H as [[H Hne'] | H].
        -- rewrite H, andb_true_r. apply bool_decide_eq_true. congruence.
        -- simpl in H. apply bool_decide_eq_true in H. congruence.
      * rewrite Hren in Hv. rewrite H, andb_true_r.
        by apply bool_decide_eq_true.
Qed.

(** X3: substitution frees no variable: a variable free in
    [M.substitute(x, R)] is free in [R], or is free in [M] and is not
    [x]. *)
Theorem substitute_free_variables (M : term) (x : pystr) (R : term) (v : pystr) :
  search (substitute M x R) v = true →
  (search M v = true ∧ v ≠ x) ∨ search R v = true.
Proof. apply search_substitute. Qed.

Lemma substitute_free_variables_witness :
  search (substitute (Application Ex.x Ex.z) (py "x") Ex.y) (py "y") = true
  ∧ ((search (Application Ex.x Ex.z) (py "y") = true ∧ py "y" ≠ py "x")
     ∨ search Ex.y (py "y") = true).
Proof.
  split; [reflexivity |].
  apply (substitute_free_variables (Application Ex.x Ex.z) (py "x") Ex.y (py "y")).
  reflexivity.
Defined.

(** ** [step] *)

(** The flag [step] returns, computed from the term alone. *)
Lemma step_changed (t : term) : (step t).2 = has_redex t.
Proof.
  induction t as [name | l IHl r IHr | a b IHb]; [done | |].
  - destruct l as [n | l1 l2 | la lb]; [| | done].
    + simpl in *. destruct (step r) as [r' cr]. done.
    + change (has_redex (Application (Application l1 l2) r))
        with (false || has_redex (Application l1 l2) || has_redex r).
      rewrite <- IHl, <- IHr.
      change (step (Application (Application l1 l2) r))
        with (let '(left', changed) := step (Application l1 l2) in
              if changed then (Application left' r, true)
              else let '(right', changed') := step r in
                   (Application left' right', changed')).
      destruct (step (Application l1 l2)) as [l' [|]];
        destruct (step r) as [r' cr]; done.
  - simpl in *. destruct (step b) as [b' cb]. done.
Qed.

(** X4: [step] reports a change exactly when the term contains a beta
    redex. *)
Theorem step_changed_iff_redex (t : term) : (step t).2 = has_redex t.
Proof. apply step_changed. Qed.

(** X5: [step] frees no variable: a variable free in the term returned
    is free in the term stepped. *)
Theorem step_free_variables (t : term) (v : pystr) :
  search (step t).1 v = true → search t v = true.
Proof.
  induction t as [name | l IHl r IHr | a b IHb]; [done | |].
  - destruct l as [n | l1 l2 | la lb].
    + simpl in *. destruct (step r) as [r' cr]. simpl in *. intros H.
      apply orb_true_iff in H as [H | H]; [by rewrite H |].
      rewrite IHr by done. apply orb_true_r.
    + change (step (Application (Application l1 l2) r))
        with (let '(left', changed) := step (Application l1 l2) in
              if changed then (Application left' r, true)
              else let '(right', changed') := step r in
                   (Application left' right', changed')).
      destruct (step (Application l1 l2)) as [l' cl].
      destruct (step r) as [r' cr]. destruct cl; cbn [fst search] in *;
        intros H; apply orb_true_iff in H as [H | H].
      * rewrite IHl by done. done.
      * rewrite H. apply orb_true_r.
      * rewrite IHl by done. done.
      * rewrite IHr by done. apply orb_true_r.
    + cbn [step fst]. intros H. apply search_substitute in H.
      cbn [search]. destruct H as [[H Hne] | H].
      * rewrite H, andb_true_r, bool_decide_eq_true_2; [done | congruence].
      * rewrite H. apply orb_true_r.
  - simpl in *. destruct (step b) as [b' cb]. simpl in *. intros H.
    apply andb_true_iff in H as [Ha H]. rewrite Ha, IHb; done.
Qed.

Lemma step_free_variables_witness :
  search (step (Application Ex.id_x Ex.y)).1 (py "y") = true
  ∧ search (Application Ex.id_x Ex.y) (py "y") = true.
Proof.
  split; [reflexivity |].
  apply (step_free_variables (Application Ex.id_x Ex.y) (py "y")).
  reflexivity.
Defined.

(** ** [is_eta_equiv] *)

(** X6: every term is equivalent to itself, whatever the dictionary. *)
Theorem is_eta_equiv_refl (t : term) (var_dict : gmap pystr pystr) :
  is_eta_equiv t t var_dict = true.
Proof.
  revert var_dict. induction t as [name | l IHl r IHr | a b IHb]; intros d.
  - simpl. by rewrite bool_decide_eq_true_2.
  - simpl. by rewrite IHl, IHr.
  - by rewrite is_eta_equiv_same_arg.
Qed.

(** X7: terms found equivalent have the same tree: [is_eta_equiv] never
    relates nodes of different classes, at any depth. *)
Theorem is_eta_equiv_shape (t u : term) (var_dict : gmap pystr pystr) :
  is_eta_equiv t u var_dict = true → shape_of t = shape_of u.
Proof.
  revert u var_dict.
  induction t as [name | l IHl r IHr | a b IHb]; intros [m | ul ur | ua ub] d;
    simpl; try done.
  - intros H. apply andb_true_iff in H as [Hl Hr].
    by rewrite (IHl _ _ Hl), (IHr _ _ Hr).
  - intros H. by rewrite (IHb _ _ H).
Qed.

Lemma is_eta_equiv_shape_witness :
  shape_of Ex.const_xy = shape_of Ex.const_yy.
Proof.
  apply (is_eta_equiv_shape Ex.const_xy Ex.const_yy ∅). reflexivity.
Defined.

(** ** [unpack_saved] *)

(** Without a saved variable free in it, a term is returned as it is. *)
Lemma unpack_saved_unchanged (t : term) (saved : gmap pystr term) :
  (∀ k, is_Some (saved !! k) → search t k = false) →
  unpack_saved t saved = t.
Proof.
  induction t as [name | l IHl r IHr | a b IHb]; intros Hfree; simpl.
  - destruct (saved !! name) as [v |] eqn:Hv; [| done].
    specialize (Hfree name). rewrite Hv in Hfree. simpl in Hfree.
    rewrite bool_decide_eq_true_2 in Hfree by done.
    by discriminate Hfree.
  - rewrite IHl, IHr; [done | |]; intros k Hk; specialize (Hfree k Hk);
      simpl in Hfree; by apply orb_false_iff in Hfree as [? ?].
  - case_decide as Ha; [done |]. rewrite IHb; [done |].
    intros k Hk. specialize (Hfree k Hk). simpl in Hfree.
    apply andb_false_iff in Hfree as [Hfree | Hfree]; [| done].
    apply bool_decide_eq_false in Hfree. destruct (decide (a = k)) as [-> |]; done.
Qed.

(** X8: a term in which no saved variable occurs free is returned
    unchanged. *)
Theorem unpack_saved_no_saved_variable (t : term) (saved : gmap pystr term) :
  (∀ k, is_Some (saved !! k) → search t k = false) →
  unpack_saved t saved = t.
Proof. apply unpack_saved_unchanged. Qed.

Lemma unpack_saved_no_saved_variable_witness :
  unpack_saved (Application Ex.y Ex.id_x) {[ py "x" := Ex.a ]}
  = Application Ex.y Ex.id_x.
Proof.
  apply (unpack_saved_no_saved_variable (Application Ex.y Ex.id_x)
           {[ py "x" := Ex.a ]}).
  intros k [v Hk]. apply lookup_singleton_Some in Hk as [<- _]. reflexivity.
Defined.

(** X9: when no saved variable occurs free in a saved value, resolving
    twice is resolving once. *)
Theorem unpack_saved_idempotent (t : term) (saved : gmap pystr term) :
  (∀ k v k', saved !! k = Some v → is_Some (saved !! k') → search v k' = false) →
  unpack_saved (unpack_saved t saved) saved = unpack_saved t saved.
Proof.
  intros Hclosed.
  induction t as [name | l IHl r IHr | a b IHb]; simpl.
  - destruct (saved !! name) as [v |] eqn:Hv.
    + apply unpack_saved_unchanged. intros k Hk. by eapply Hclosed.
    + simpl. by rewrite Hv.
  - by rewrite IHl, IHr.
  - case_decide as Ha.
    + simpl. by rewrite decide_True.
    + simpl. by rewrite decide_False, IHb.
Qed.

Lemma unpack_saved_idempotent_witness :
  unpack_saved (unpack_saved (Application Ex.x Ex.y) {[ py "x" := Ex.a ]})
               {[ py "x" := Ex.a ]}
  = unpack_saved (Application Ex.x Ex.y) {[ py "x" := Ex.a ]}.
Proof.
  apply (unpack_saved_idempotent (Application Ex.x Ex.y) {[ py "x" := Ex.a ]}).
  intros k v k' Hk [v' Hk'].
  apply lookup_singleton_Some in Hk as [<- <-].
  apply lookup_singleton_Some in Hk' as [<- _]. reflexivity.
Defined.

(** * The lexer *)

Lemma lex_from_nil (token : pystr) : lex_from [] token = flush token.
Proof. reflexivity. Qed.

Lemma lex_from_cons (c : N) (rest token : pystr) :
  lex_from (c :: rest) token
  = if is_special c then flush token ++ [c] :: lex_from rest []
    else if is_blank c then flush token ++ lex_from rest []
    else if decide (c = 59) then flush token
    else lex_from rest (token ++ [c]).
Proof. reflexivity. Qed.

Lemma symbol_char_spec (c : N) :
  symbol_char c = true ↔ is_special c = false ∧ is_blank c = false ∧ c ≠ 59.
Proof.
  unfold symbol_char. rewrite !andb_true_iff, !negb_true_iff.
  rewrite bool_decide_eq_false. tauto.
Qed.

Lemma is_blank_spec (c : N) : is_blank c = true ↔ c = 32 ∨ c = 9.
Proof.
  unfold is_blank. simpl.
  rewrite !andb_true_r, !orb_false_r, orb_true_iff, !bool_decide_eq_true.
  tauto.
Qed.

Lemma is_special_spec (c : N) : is_special c = true ↔ c ∈ py "().\λ=".
Proof.
  unfold is_special. vm_compute py. simpl.
  rewrite !andb_true_r, !orb_false_r, !orb_true_iff, !bool_decide_eq_true.
  rewrite !elem_of_cons, elem_of_nil. tauto.
Qed.

Lemma is_special_not_blank (c : N) : is_special c = true → is_blank c = false.
Proof.
  intros Hsp. destruct (is_blank c) eqn:Hb; [| done].
  apply is_blank_spec in Hb as [-> | ->]; vm_compute in Hsp; discriminate.
Qed.

Lemma lex_from_symbol_char (c : N) (rest token : pystr) :
  symbol_char c = true → lex_from (c :: rest) token = lex_from rest (token ++ [c]).
Proof.
  intros (Hs & Hb & Hc)%symbol_char_spec.
  rewrite lex_from_cons, Hs, Hb. by rewrite decide_False.
Qed.

(** A run of symbol characters is added to the pending symbol. *)
Lemma lex_from_symbol_chars (s rest token : pystr) :
  forallb symbol_char s = true →
  lex_from (s ++ rest) token = lex_from rest (token ++ s).
Proof.
  revert token. induction s as [| c s IH]; intros token Hs;
    cbn [app forallb] in *.
  - by rewrite app_nil_r.
  - apply andb_true_iff in Hs as [Hc Hs].
    rewrite lex_from_symbol_char by done. rewrite IH by done.
    by rewrite <- app_assoc.
Qed.

Lemma flush_tokens (token : pystr) :
  forallb symbol_char token = true → Forall (λ t, is_token t = true) (flush token).
Proof.
  intros H. unfold flush. case_decide; [| constructor].
  repeat constructor. unfold is_token, is_symbol.
  by rewrite bool_decide_eq_true_2, H.
Qed.

Lemma lex_from_tokens (s token : pystr) :
  forallb symbol_char token = true →
  Forall (λ t, is_token t = true) (lex_from s token).
Proof.
  revert token. induction s as [| c s IH]; intros token Htok.
  - by apply flush_tokens.
  - rewrite lex_from_cons. destruct (is_special c) eqn:Hs.
    + apply Forall_app. split; [by apply flush_tokens |].
      constructor; [| by apply IH].
      unfold is_token. rewrite Hs. apply orb_true_r.
    + destruct (is_blank c) eqn:Hb.
      * apply Forall_app. split; [by apply flush_tokens | by apply IH].
      * case_decide as Hc; [by apply flush_tokens |].
        apply IH. rewrite forallb_app, Htok. simpl.
        rewrite andb_true_r. apply symbol_char_spec. done.
Qed.

(** X10: every token [lex] yields is a symbol (not empty, free of
    special characters, blanks and semicolons) or one special
    character. *)
Theorem lex_tokens (s : pystr) : Forall (λ t, is_token t = true) (lex s).
Proof. by apply lex_from_tokens. Qed.

Lemma lex_from_comment (s t token : pystr) :
  lex_from (s ++ 59 :: t) token = lex_from s token.
Proof.
  revert token. induction s as [| c s IH]; intros token.
  - reflexivity.
  - simpl app. rewrite !lex_from_cons.
    destruct (is_special c); [by rewrite IH |].
    destruct (is_blank c); [by rewrite IH |].
    case_decide; [done | apply IH].
Qed.

(** X11: a semicolon starts a comment: [lex], and so [parse], ignore it
    and everything after it. *)
Theorem parse_comment (s t : pystr) :
  lex (s ++ py ";" ++ t) = lex s ∧ parse (s ++ py ";" ++ t) = parse s.
Proof.
  assert (lex (s ++ py ";" ++ t) = lex s) as Hlex by apply lex_from_comment.
  split; [done |]. unfold parse. by rewrite Hlex.
Qed.

Lemma lex_from_concat (s token : pystr) :
  59 ∉ s →
  concat (lex_from s token) = token ++ filter (λ c, is_blank c = false) s.
Proof.
  assert (∀ tok, concat (flush tok) = tok) as Hflush.
  { intros tok. unfold flush. case_decide as H; simpl.
    - apply app_nil_r.
    - destruct (decide (tok = [])); [done | by destruct H]. }
  revert token. induction s as [| c s IH]; intros token Hs.
  - rewrite lex_from_nil, Hflush. by rewrite app_nil_r.
  - apply not_elem_of_cons in Hs as [Hc Hs]. rewrite lex_from_cons.
    destruct (is_special c) eqn:Hsp.
    + pose proof (is_special_not_blank c Hsp) as Hb.
      rewrite concat_app, Hflush. simpl. rewrite IH by done. simpl.
      by rewrite filter_cons_True by done.
    + destruct (is_blank c) eqn:Hb.
      * rewrite concat_app, Hflush, IH by done. simpl.
        rewrite filter_cons_False; [done |]. by rewrite Hb.
      * rewrite decide_False by done. rewrite IH by done.
        rewrite filter_cons_True by done. by rewrite <- app_assoc.
Qed.

(** X12: without a comment, [lex] only drops blanks: the tokens put
    together are the input without its spaces and tabs. *)
Theorem lex_concat (s : pystr) :
  59 ∉ s → concat (lex s) = filter (λ c, is_blank c = false) s.
Proof. apply lex_from_concat. Qed.

Lemma lex_concat_witness :
  concat (lex (py "(λx. x y )")) = filter (λ c, is_blank c = false) (py "(λx. x y )").
Proof.
  apply (lex_concat (py "(λx. x y )")).
  apply (bool_decide_unpack _). vm_compute. exact I.
Defined.

Lemma lex_from_token (token rest : pystr) :
  is_token token = true →
  lex_from (token ++ 32 :: rest) [] = token :: lex_from rest []
  ∧ lex_from token [] = [token].
Proof.
  unfold is_token. intros [Hsym | Hsp]%orb_true_iff.
  - unfold is_symbol in Hsym. apply andb_true_iff in Hsym as [Hne Hs].
    apply bool_decide_eq_true in Hne.
    assert (flush token = [token]) as Hflush.
    { unfold flush. by rewrite decide_True. }
    split.
    + rewrite lex_from_symbol_chars by done. rewrite lex_from_cons.
      replace (is_special 32) with false by reflexivity.
      replace (is_blank 32) with true by reflexivity.
      cbn [app]. by rewrite Hflush.
    + rewrite <- (app_nil_r token) at 1.
      rewrite lex_from_symbol_chars by done. by rewrite lex_from_nil.
  - destruct token as [| c [| ? ?]]; try done. cbn [app].
    rewrite !lex_from_cons, Hsp. done.
Qed.

Lemma lex_from_join (token : pystr) (tokens : list pystr) :
  is_token token = true → Forall (λ t, is_token t = true) tokens →
  lex_from (token ++ concat (map (λ q, py " " ++ q) tokens)) [] = token :: tokens.
Proof.
  intros Ht Hts. revert token Ht.
  induction Hts as [| token' tokens Ht' Hts IH]; intros token Ht.
  - cbn [map concat]. rewrite app_nil_r. by apply lex_from_token.
  - cbn [map concat]. change (py " ") with [32] in *.
    rewrite <- app_assoc. cbn [app].
    rewrite (proj1 (lex_from_token token _ Ht)). f_equal. by apply IH.
Qed.

(** X13: tokens written with one space between them are read back as
    they are. *)
Theorem lex_join (tokens : list pystr) :
  Forall (λ t, is_token t = true) tokens →
  lex (join (py " ") tokens) = tokens.
Proof.
  intros Htok. destruct Htok as [| token tokens Ht Hts]; [done |].
  by apply lex_from_join.
Qed.

Lemma lex_join_witness :
  lex (join (py " ") [py "λ"; py "x"; py "."; py "x"; py "("; py "y'"; py ")"])
  = [py "λ"; py "x"; py "."; py "x"; py "("; py "y'"; py ")"].
Proof.
  apply (lex_join [py "λ"; py "x"; py "."; py "x"; py "("; py "y'"; py ")"]).
  repeat constructor.
Defined.

(** * The parser *)

(** ** [build_application] *)

Lemma foldl_application_not_None (o : pyobj) (os : list pyobj) :
  is_None o = false →
  foldl (λ built expr, if is_None built then expr else PyApplication built expr)
        o os
  = foldl PyApplication o os.
Proof.
  revert o. induction os as [| o' os IH]; intros o Ho; [done |].
  simpl. rewrite Ho. by apply IH.
Qed.

(** [build_application] over the part of the stack from [start_index]. *)
Lemma build_application_app (stack : list pyobj) (o : pyobj) (os : list pyobj) :
  is_None o = false →
  build_application (stack ++ o :: os) (length stack)
  = (foldl PyApplication o os, stack).
Proof.
  intros Ho. unfold build_application.
  rewrite drop_app_length, take_app_length. f_equal.
  simpl. by apply foldl_application_not_None.
Qed.

(** X14: [build_application] removes the objects from [start_index] on
    and, when the first of them is not [None], returns their left-nested
    application. *)
Theorem build_application_chain (stack : list pyobj) (o : pyobj) (os : list pyobj) :
  is_None o = false →
  build_application (stack ++ o :: os) (length stack)
  = (foldl PyApplication o os, stack).
Proof. apply build_application_app. Qed.

Lemma build_application_chain_witness :
  build_application [PyStr (py "("); PyVar (py "a"); PyNone; PyVar (py "b")] 1
  = (PyApplication (PyApplication (PyVar (py "a")) PyNone) (PyVar (py "b")),
     [PyStr (py "(")]).
Proof.
  apply (build_application_chain [PyStr (py "(")] (PyVar (py "a"))
           [PyNone; PyVar (py "b")]).
  reflexivity.
Defined.

Lemma foldl_application_not_str (o : pyobj) (os : list pyobj) :
  is_str o = false → Forall (λ o, is_str o = false) os →
  is_str (foldl (λ built expr,
                   if is_None built then expr else PyApplication built expr)
                o os) = false.
Proof.
  intros Ho Hos. revert o Ho. induction Hos as [| o' os Ho' Hos IH]; intros o Ho;
    [done |].
  simpl. apply IH. by destruct (is_None o).
Qed.

Lemma build_application_not_str (stack : list pyobj) (n : nat) :
  Forall (λ o, is_str o = false) (drop n stack) →
  is_str (build_application stack n).1 = false.
Proof. intros H. by apply foldl_application_not_str. Qed.

(** ** [apply_stack] *)

Lemma stack_ok_take (stack : list pyobj) (n : nat) :
  stack_ok stack → stack_ok (take n stack).
Proof. apply Forall_take. Qed.

Lemma stack_ok_removelast (stack : list pyobj) :
  stack_ok stack → stack_ok (removelast stack).
Proof.
  intros H. destruct stack as [| o stack _] using rev_ind; [done |].
  rewrite removelast_last. by apply Forall_app in H as [H _].
Qed.

Lemma stack_ok_push (stack : list pyobj) (o : pyobj) :
  stack_ok stack → (is_str o = true → is_stack_token o = true) →
  stack_ok (stack ++ [o]).
Proof. intros H Ho. apply Forall_app. split; [done |]. by constructor. Qed.

Lemma list_pop_Returns (stack : list pyobj) :
  stack ≠ [] →
  ∃ top, list_pop stack = Returns (top, removelast stack) ∧ last stack = Some top.
Proof.
  intros H. unfold list_pop. destruct (last stack) as [top |] eqn:Hl; [eauto |].
  by apply last_None in Hl.
Qed.

Lemma length_removelast (stack : list pyobj) :
  length (removelast stack) = pred (length stack).
Proof.
  destruct stack as [| o stack _] using rev_ind; [done |].
  rewrite removelast_last, length_app. simpl. lia.
Qed.

Lemma is_syntax_error_intro (msg : pystr) :
  is_syntax_error (PyStr (py "Syntax error: " ++ msg)).
Proof. by exists msg. Qed.

Lemma apply_stack_round_ok (i : nat) (stack : list pyobj) (built : pyobj)
    (checking : bool) :
  round_inv (S i) stack built checking →
  ∃ f, apply_stack_round i stack built checking = Returns f ∧ flow_ok i f.
Proof.
  intros (Hok & Hbuilt & Hlen). unfold apply_stack_round.
  assert (i < length stack)%nat as Hi by (destruct checking; lia).
  destruct (lookup_lt_is_Some_2 stack i Hi) as [expr Hexpr].
  unfold list_get. rewrite Hexpr. cbn [mbind outcome_bind].
  assert (stack ≠ []) as Hne by (intros ->; simpl in Hi; lia).
  destruct checking.
  - (* between the dot and the lambda *)
    destruct (is_Variable expr) eqn:Hvar.
    + destruct (list_pop_Returns stack Hne) as (top & -> & _).
      cbn [mbind outcome_bind]. eexists. split; [done |].
      split; [by apply stack_ok_removelast |]. split; [done |].
      rewrite length_removelast. lia.
    + destruct (is_lambda expr) eqn:Hlam.
      * destruct (is_Function built) eqn:Hfun; cbn [negb].
        -- destruct (list_pop_Returns stack Hne) as (top & -> & _).
           cbn [mbind outcome_bind]. eexists. split; [done |].
           split; [| split; [done |]].
           ++ apply stack_ok_push; [by apply stack_ok_removelast |].
              by rewrite Hbuilt.
           ++ rewrite length_app, length_removelast. simpl.
              split; [lia |].
              rewrite drop_app_length'; [by repeat constructor |].
              rewrite length_removelast. lia.
        -- eexists. split; [done |]. split; [done |]. intros _.
           by exists (py "'" ++ py_str expr ++ py "' followed by '.'").
      * eexists. split; [done |]. split; [done |]. intros _.
        by exists (py "invalid argument " ++ py_repr expr).
  - destruct Hlen as [Hlen Habove].
    destruct (eq_str expr (py "(")) eqn:Hparen.
    + cbn [build_application]. eexists. split; [done |].
      split; [by apply stack_ok_take |]. intros Hstr.
      rewrite foldl_application_not_str in Hstr; [done | done |].
      by rewrite Nat.add_1_r.
    + destruct (eq_str expr (py ".")) eqn:Hdot.
      * assert (take (i + 1) stack ≠ []) as Hne'.
        { intros H%(f_equal length). rewrite length_take in H. simpl in H. lia. }
        cbn [build_application].
        destruct (list_pop_Returns _ Hne') as (top & -> & _).
        cbn [mbind outcome_bind]. eexists. split; [done |].
        split; [by apply stack_ok_removelast, stack_ok_take |].
        split.
        -- apply foldl_application_not_str; [done |]. by rewrite Nat.add_1_r.
        -- rewrite length_removelast, length_take. lia.
      * destruct (is_lambda expr) eqn:Hlam.
        -- eexists. split; [done |]. split; [done |]. intros _.
           by exists (py "unexpected '" ++ py_str expr ++ py "'").
        -- eexists. split; [done |]. split; [done |]. split; [done |].
           split; [lia |].
           rewrite (drop_S _ _ _ Hexpr). constructor; [| done].
           destruct (is_str expr) eqn:Hstr; [| done].
           unfold stack_ok in Hok. rewrite Forall_lookup in Hok.
           specialize (Hok i expr Hexpr Hstr). unfold is_stack_token in Hok.
           by rewrite Hparen, Hdot, Hlam in Hok.
Qed.

Lemma apply_stack_loop_ok (n : nat) (stack : list pyobj) (built : pyobj)
    (checking : bool) :
  round_inv n stack built checking →
  ∃ f, apply_stack_loop (reverse (seq 0 n)) stack built checking = Returns f
       ∧ flow_ok 0 f.
Proof.
  revert stack built checking.
  induction n as [| n IH]; intros stack built checking Hinv.
  - eexists. split; [done |]. done.
  - rewrite seq_S, reverse_snoc. cbn [apply_stack_loop plus].
    destruct (apply_stack_round_ok n stack built checking Hinv) as (f & -> & Hf).
    cbn [mbind outcome_bind]. destruct f as [value stack' | stack' built' checking'].
    + eexists. split; [done |]. done.
    + by apply IH.
Qed.

(** On a stack whose strings are the parser's, [apply_stack] raises no
    exception, leaves such a stack, and returns a string only for an
    error message. *)
Lemma apply_stack_ok (stack : list pyobj) :
  stack_ok stack →
  ∃ value stack',
    apply_stack stack = Returns (value, stack')
    ∧ stack_ok stack'
    ∧ (is_str value = true → is_syntax_error value).
Proof.
  intros Hok. unfold apply_stack.
  destruct (apply_stack_loop_ok (length stack) stack PyNone false)
    as (f & -> & Hf).
  { split; [done |]. split; [done |]. split; [lia |].
    by rewrite drop_all. }
  cbn [mbind outcome_bind]. destruct f as [value stack' | stack' built checking].
  - destruct Hf as [Hok' Hvalue]. eauto.
  - destruct Hf as (Hok' & Hbuilt & Hlen). destruct checking.
    + eexists _, _. split; [done |]. split; [done |]. intros _.
      by exists (py "unexpected '.'").
    + destruct Hlen as [_ Habove]. rewrite drop_0 in Habove.
      destruct (is_None built).
      * cbn [build_application]. eexists _, _. split; [done |].
        split; [by apply stack_ok_take |]. intros Hstr.
        by rewrite foldl_application_not_str in Hstr.
      * eexists _, _. split; [done |]. split; [done |].
        intros Hstr. congruence.
Qed.

(** ** [parse] *)

Lemma str_in_head (c : N) (rest hay : pystr) :
  str_in (c :: rest) hay = true → c ∈ hay.
Proof.
  induction hay as [| d hay IH]; [done |].
  cbn [str_in starts_with]. intros [H | H]%orb_true_iff.
  - apply andb_true_iff in H as [H _]. apply bool_decide_eq_true in H.
    subst. left.
  - right. by apply IH.
Qed.

(** A token that occurs in a string of special characters is one of its
    characters. *)
Lemma str_in_token (token hay : pystr) :
  is_token token = true → Forall (λ c, is_special c = true) hay →
  str_in token hay = true → ∃ c, token = [c] ∧ c ∈ hay.
Proof.
  intros Htok Hhay Hin. unfold is_token in Htok.
  apply orb_true_iff in Htok as [Hsym | Hsp].
  - unfold is_symbol in Hsym. apply andb_true_iff in Hsym as [Hne Hs].
    apply bool_decide_eq_true in Hne. destruct token as [| c rest]; [done |].
    apply str_in_head in Hin. rewrite Forall_forall in Hhay.
    specialize (Hhay c Hin). simpl in Hs. apply andb_true_iff in Hs as [Hc _].
    apply symbol_char_spec in Hc as [Hc _]. congruence.
  - destruct token as [| c [| ? ?]]; try done. exists c. split; [done |].
    by apply str_in_head in Hin.
Qed.

Lemma valid_mode_cases (m : Z) :
  valid_mode m → m = 0%Z ∨ m = 1%Z ∨ m = 2%Z ∨ m = 3%Z ∨ m = 4%Z ∨ m = 6%Z.
Proof.
  unfold valid_mode. rewrite !elem_of_cons, elem_of_nil. tauto.
Qed.

Lemma valid_mode_intro (m : Z) :
  m = 0%Z ∨ m = 1%Z ∨ m = 2%Z ∨ m = 3%Z ∨ m = 4%Z ∨ m = 6%Z → valid_mode m.
Proof.
  unfold valid_mode. rewrite !elem_of_cons, elem_of_nil. tauto.
Qed.

Lemma syntax_error_ok (msg : string) :
  is_syntax_error (PyStr (py ("Syntax error: " ++ msg))) →
  parse_flow_ok (syntax_error ("Syntax error: " ++ msg)).
Proof. intros H. by split. Qed.

Ltac mode_cases H :=
  apply valid_mode_cases in H;
  destruct H as [-> | [-> | [-> | [-> | [-> | ->]]]]].

Lemma parse_token_ok (token : pystr) (st : locals) :
  is_token token = true → locals_ok st →
  ∃ f, parse_token token st = Returns f ∧ parse_flow_ok f.
Proof.
  intros Htok Hst. destruct st as [stk inside md name].
  destruct Hst as (Hok & Hmode & Hvar). cbn [stack mode var_name] in *.
  unfold parse_token.
  destruct (str_in token (py "(")) eqn:Hparen.
  { eexists. split; [done |]. split; [| done].
    apply stack_ok_push; [done |]. intros _.
    destruct (str_in_token token (py "(") Htok) as (c & -> & Hc);
      [by repeat constructor | done |].
    vm_compute py in Hc. rewrite !elem_of_cons, elem_of_nil in Hc.
    by destruct Hc as [-> | []]. }
  destruct (str_in token (py "\λ.")) eqn:Hlam.
  { eexists. split; [done |]. split; [| done].
    apply stack_ok_push; [done |]. intros _.
    destruct (str_in_token token (py "\λ.") Htok) as (c & -> & Hc);
      [by repeat constructor | done |].
    vm_compute py in Hc. rewrite !elem_of_cons, elem_of_nil in Hc.
    by destruct Hc as [-> | [-> | [-> | []]]]. }
  case_decide as Hclose.
  { destruct (apply_stack_ok stk Hok) as (built & stack' & -> & Hok' & Hbuilt).
    cbn [mbind outcome_bind]. destruct (is_str built) eqn:Hstr.
    - eexists. split; [done |]. split; [by apply Hbuilt | done].
    - case_decide as Hlen.
      + eexists. split; [done |]. split; [| done]. by exists (py "unexpected ')'").
      + assert (stack' ≠ []) as Hne by (by intros ->).
        destruct (list_pop_Returns stack' Hne) as (top & -> & _).
        cbn [mbind outcome_bind]. eexists. split; [done |].
        split; [| done]. apply stack_ok_push; [by apply stack_ok_removelast |].
        by rewrite Hstr. }
  case_decide as Hrun.
  { destruct (bool_decide (length stk = 0%nat)
              && bool_decide (Z.land md LAMBDA_MODE_STEP = 0%Z)) eqn:Hcond.
    - apply andb_true_iff in Hcond as [_ Hstep].
      apply bool_decide_eq_true in Hstep.
      eexists. split; [done |]. split; [done |].
      cbn [mode var_name]. split.
      + apply valid_mode_intro. mode_cases Hmode; vm_compute in Hstep;
          try discriminate; vm_compute; tauto.
      + intros Hset. apply Hvar.
        mode_cases Hmode;
          first [ by exfalso; apply Hset; vm_compute | by vm_compute ].
    - eexists. split; [done |]. split; [| done]. by exists (py "unexpected 'run'"). }
  case_decide as Hstep.
  { destruct (bool_decide (length stk = 0%nat)
              && bool_decide (Z.land md LAMBDA_MODE_RUN = 0%Z)) eqn:Hcond.
    - apply andb_true_iff in Hcond as [_ Hr].
      apply bool_decide_eq_true in Hr.
      eexists. split; [done |]. split; [done |].
      cbn [mode var_name]. split.
      + apply valid_mode_intro. mode_cases Hmode; vm_compute in Hr;
          try discriminate; vm_compute; tauto.
      + intros Hset. apply Hvar.
        mode_cases Hmode;
          first [ by exfalso; apply Hset; vm_compute | by vm_compute ].
    - eexists. split; [done |]. split; [| done]. by exists (py "unexpected 'run'"). }
  case_decide as Heq.
  { assert (∀ f, f = syntax_error "Syntax error: unexpected '='" →
                 parse_flow_ok f) as Herr.
    { intros f ->. split; [| done]. by exists (py "unexpected '='"). }
    destruct stk as [| [| | n | |] [| ? ?]]; try (eexists; split; [done |];
      by apply Herr).
    eexists. split; [done |]. split; [by constructor |].
    cbn [mode var_name]. split; [| done].
    apply valid_mode_intro. mode_cases Hmode; vm_compute; tauto. }
  eexists. split; [done |]. split; [| done]. by apply stack_ok_push.
Qed.

Lemma parse_tokens_ok (tokens : list pystr) (st : locals) :
  Forall (λ t, is_token t = true) tokens → locals_ok st →
  ∃ f, parse_tokens tokens st = Returns f ∧ parse_flow_ok f.
Proof.
  intros Htok. revert st. induction Htok as [| token tokens Ht Hts IH];
    intros st Hst.
  - eexists. split; [done |]. done.
  - cbn [parse_tokens]. destruct (parse_token_ok token st Ht Hst) as (f & -> & Hf).
    cbn [mbind outcome_bind]. destruct f as [result | st'].
    + eexists. split; [done |]. done.
    + by apply IH.
Qed.

(** The whole of what [parse] guarantees about its result. *)
Lemma parse_ok (s : pystr) :
  ∃ value m, parse s = Returns (value, m) ∧ parse_result_ok value m.
Proof.
  unfold parse.
  destruct (parse_tokens_ok (lex s) (Locals [] false LAMBDA_MODE_NONE PyNone))
    as (f & -> & Hf).
  { by apply lex_from_tokens. }
  { split; [by constructor |]. split; [| done].
    apply valid_mode_intro. by left. }
  cbn [mbind outcome_bind]. destruct f as [[value m] | [stk inside md name]].
  - destruct Hf as [Hv ->]. eexists _, _. split; [done |]. by left.
  - destruct Hf as (Hok & Hmode & Hvar). cbn [stack mode var_name] in *.
    destruct (apply_stack_ok stk Hok) as (built & stack' & -> & Hok' & Hbuilt).
    cbn [mbind outcome_bind].
    destruct (is_str built) eqn:Hstr; cbn [negb].
    + rewrite andb_false_r. eexists _, _. split; [done |]. left. auto.
    + rewrite andb_true_r. case_bool_decide as Hlen.
      * eexists _, _. split; [done |]. left. split; [| done].
        by exists (py "unmatched '('").
      * case_bool_decide as Hset; cbn [negb].
        -- eexists _, _. split; [done |]. right. split; [done |].
           split; [done |]. intros Hset'. by destruct Hset'.
        -- destruct (is_None built) eqn:Hnone.
           ++ eexists _, _. split; [done |]. left. split; [| done].
              by exists (py "unexpected '='").
           ++ eexists _, _. split; [done |]. right. split; [done |].
              split; [done |]. intros _. specialize (Hvar Hset).
              destruct name as [| | n | |]; try done. eauto.
Qed.

(** X15: [parse] raises no exception, whatever the input: the [pop]s and
    the indexing of [apply_stack] and [parse] are always in range. *)
Theorem parse_never_raises (s : pystr) (e : exn) : parse s ≠ Raises e.
Proof. destruct (parse_ok s) as (value & m & -> & _). done. Qed.

(** X16: [parse] returns either an error message (a string that starts
    with [Syntax error: ]) with the mode ERR, or an object that is not a
    string with a mode made of RUN, SET and STEP in which RUN and STEP
    are not both set. *)
Theorem parse_result (s : pystr) (value : pyobj) (m : Z) :
  parse s = Returns (value, m) →
  (m = LAMBDA_MODE_ERR ∧ ∃ msg, value = PyStr (py "Syntax error: " ++ msg))
  ∨ (is_str value = false ∧ m ∈ [0; 1; 2; 3; 4; 6]%Z
     ∧ ¬ (Z.land m LAMBDA_MODE_RUN ≠ 0%Z ∧ Z.land m LAMBDA_MODE_STEP ≠ 0%Z)).
Proof.
  destruct (parse_ok s) as (value' & m' & -> & Hres). intros [= <- <-].
  destruct Hres as [[Herr ->] | (Hstr & Hmode & _)]; [by left |].
  right. split; [done |]. split; [done |].
  mode_cases Hmode; vm_compute; intros [H1 H2]; congruence.
Qed.

Lemma parse_result_witness :
  (1%Z = LAMBDA_MODE_ERR ∧ ∃ msg, PyVar (py "x") = PyStr (py "Syntax error: " ++ msg))
  ∨ (is_str (PyVar (py "x")) = false ∧ 1%Z ∈ [0; 1; 2; 3; 4; 6]%Z
     ∧ ¬ (Z.land 1 LAMBDA_MODE_RUN ≠ 0%Z ∧ Z.land 1 LAMBDA_MODE_STEP ≠ 0%Z)).
Proof.
  apply (parse_result (py "run x") (PyVar (py "x")) 1%Z).
  vm_compute. reflexivity.
Defined.

(** X17: when the mode returned has the SET bit, the object returned is
    the carrier [Application(Variable(name), built)], and [built] is
    neither [None] nor a string: the caller can read [tree.left] and
    [tree.right]. *)
Theorem parse_set_carrier (s : pystr) (value : pyobj) (m : Z) :
  parse s = Returns (value, m) → Z.land m LAMBDA_MODE_SET ≠ 0%Z →
  ∃ name built, value = PyApplication (PyVar name) built
                ∧ is_None built = false ∧ is_str built = false.
Proof.
  destruct (parse_ok s) as (value' & m' & -> & Hres). intros [= <- <-] Hset.
  destruct Hres as [[_ ->] | (_ & _ & Hcarrier)]; [done |]. by apply Hcarrier.
Qed.

Lemma parse_set_carrier_witness :
  ∃ name built, PyApplication (PyVar (py "id")) (of_term Ex.id_x)
                = PyApplication (PyVar name) built
                ∧ is_None built = false ∧ is_str built = false.
Proof.
  apply (parse_set_carrier (py "id = λx.x")
           (PyApplication (PyVar (py "id")) (of_term Ex.id_x)) 2%Z).
  - vm_compute. reflexivity.
  - vm_compute. discriminate.
Defined.

(** * Printing and reading back *)

(** ** [__repr__] without [split] and [join] *)

Lemma split_on_app (c : N) (s1 s2 : pystr) :
  c ∉ s1 → split_on c (s1 ++ c :: s2) = s1 :: split_on c s2.
Proof.
  induction s1 as [| d s1 IH]; intros Hc; cbn [app split_on].
  - by rewrite decide_True.
  - apply not_elem_of_cons in Hc as [Hd Hc].
    rewrite decide_False by done. by rewrite IH.
Qed.

Lemma split_on_not_nil (c : N) (s : pystr) : split_on c s ≠ [].
Proof.
  destruct s as [| d s]; [done |]. cbn [split_on].
  case_decide; [done |]. by destruct (split_on c s).
Qed.

Lemma join_split_on (c : N) (s : pystr) : join [c] (split_on c s) = s.
Proof.
  induction s as [| d s IH]; [done |]. cbn [split_on].
  pose proof (split_on_not_nil c s) as Hne.
  destruct (split_on c s) as [| p ps]; [done |].
  case_decide as Hd.
  - subst d. cbn [join map concat app] in *. by rewrite IH.
  - cbn [join] in *. rewrite <- app_comm_cons. by rewrite IH.
Qed.

Lemma join_cons (sep p : pystr) (q : pystr) (ps : list pystr) :
  join sep (p :: q :: ps) = p ++ sep ++ join sep (q :: ps).
Proof. cbn [join map concat]. by rewrite <- !app_assoc. Qed.

Lemma is_symbol_no_special (n : pystr) (c : N) :
  is_symbol n = true → c ∈ n → is_special c = false ∧ is_blank c = false.
Proof.
  unfold is_symbol. intros [_ Hs]%andb_true_iff Hc.
  rewrite forallb_forall in Hs. apply list_elem_of_In in Hc.
  apply Hs, symbol_char_spec in Hc. tauto.
Qed.

Lemma is_name_symbol (n : pystr) : is_name n = true → is_symbol n = true.
Proof. unfold is_name. by intros [[H _]%andb_true_iff _]%andb_true_iff. Qed.

Lemma names_ok_core (t : term) : names_ok t = true → names_ok (core t) = true.
Proof.
  induction t as [n | l _ r _ | a b IH]; [done | done |].
  simpl. intros [_ H]%andb_true_iff. auto.
Qed.

Lemma names_ok_params (t : term) :
  names_ok t = true → Forall (λ n, is_name n = true) (params t).
Proof.
  induction t as [n | l _ r _ | a b IH]; [by constructor | by constructor |].
  simpl. intros [Ha H]%andb_true_iff. constructor; auto.
Qed.

Lemma is_abs_core (t : term) : is_abs (core t) = false.
Proof. by induction t. Qed.

Lemma height_core (t : term) : (height (core t) ≤ height t)%nat.
Proof. induction t; simpl; lia. Qed.

Lemma join_names_no_dot (ns : list pystr) :
  Forall (λ n, is_name n = true) ns → 46 ∉ join (py " ") ns.
Proof.
  assert (∀ n, is_name n = true → 46 ∉ n) as Hname.
  { intros n Hn Hin.
    by destruct (is_symbol_no_special n 46 (is_name_symbol n Hn) Hin). }
  induction 1 as [| n ns Hn Hns IH]; [by apply not_elem_of_nil |].
  destruct ns as [| n' ns].
  - cbn [join map concat]. rewrite app_nil_r. by apply Hname.
  - rewrite join_cons. rewrite !not_elem_of_app. split; [by apply Hname |].
    split; [| done]. vm_compute py.
    apply not_elem_of_cons. split; [done | apply not_elem_of_nil].
Qed.

(** The printed form of an abstraction: the marker, the parameters of
    all the abstractions at its head, a dot, and the body under them. *)
Lemma py_str_Function (a : pystr) (b : term) :
  Forall (λ n, is_name n = true) (params b) →
  py_str (of_term (Function a b))
  = py "λ" ++ join (py " ") (a :: params b) ++ py "."
    ++ py_str (of_term (core b)).
Proof.
  revert a. induction b as [n | l _ r _ | a' b' IH]; intros a Hnames.
  - cbn [of_term py_str is_Function params core join map concat].
    by rewrite app_nil_r.
  - cbn [of_term py_str is_Function params core join map concat].
    by rewrite app_nil_r.
  - cbn [params core] in *. apply Forall_cons in Hnames as [Ha' Hnames].
    change (of_term (Function a (Function a' b')))
      with (PyFunction (PyVar a) (of_term (Function a' b'))).
    change (py_str (PyFunction (PyVar a) (of_term (Function a' b'))))
      with (let pieces := split_on 46 (py_str (of_term (Function a' b'))) in
            let args := tail (hd [] pieces) in
            py "λ" ++ a ++ py " " ++ args ++ py "."
            ++ join (py ".") (tail pieces)).
    rewrite (IH a' Hnames). cbv zeta.
    change (py "λ" ++ join (py " ") (a' :: params b') ++ py "."
            ++ py_str (of_term (core b')))
      with ((955 :: join (py " ") (a' :: params b'))
            ++ 46 :: py_str (of_term (core b'))).
    rewrite split_on_app.
    + cbn [hd tail]. change (py ".") with [46]. rewrite join_split_on.
      rewrite join_cons. by rewrite <- !app_assoc.
    + apply not_elem_of_cons. split; [done |].
      apply join_names_no_dot. by constructor.
Qed.

Lemma toks_Function (a : pystr) (b : term) :
  toks (Function a b)
  = py "λ" :: (a :: params b) ++ py "." :: toks (core b).
Proof.
  revert a. induction b as [n | l _ r _ | a' b' IH]; intros a; [done | done |].
  change (toks (Function a (Function a' b')))
    with (py "λ" :: a :: tail (toks (Function a' b'))).
  by rewrite IH.
Qed.

Lemma seg_Function (a : pystr) (b : term) :
  seg (Function a b)
  = PyStr (py "λ") :: map PyVar (a :: params b)
    ++ PyStr (py ".") :: seg (core b).
Proof.
  revert a. induction b as [n | l _ r _ | a' b' IH]; intros a; [done | done |].
  change (seg (Function a (Function a' b')))
    with (PyStr (py "λ") :: PyVar a :: tail (seg (Function a' b'))).
  by rewrite IH.
Qed.

(** ** [lex] on a printed term *)

Lemma lex_from_special (c : N) (s : pystr) :
  is_special c = true → lex_from (c :: s) [] = [c] :: lex_from s [].
Proof. intros H. by rewrite lex_from_cons, H. Qed.

Lemma lex_from_blank (c : N) (s : pystr) :
  is_blank c = true → lex_from (c :: s) [] = lex_from s [].
Proof.
  intros H. rewrite lex_from_cons, H.
  destruct (is_special c) eqn:Hs; [| done].
  apply is_special_not_blank in Hs. congruence.
Qed.

Lemma lex_from_name (n rest : pystr) :
  is_symbol n = true → delimited rest = true →
  lex_from (n ++ rest) [] = n :: lex_from rest [].
Proof.
  intros Hn Hrest. unfold is_symbol in Hn.
  apply andb_true_iff in Hn as [Hne Hs]. apply bool_decide_eq_true in Hne.
  rewrite lex_from_symbol_chars by done. cbn [app].
  assert (flush n = [n]) as Hflush by (unfold flush; by rewrite decide_True).
  destruct rest as [| c rest]; [by rewrite lex_from_nil |].
  cbn [delimited] in Hrest. rewrite lex_from_cons.
  destruct (is_special c) eqn:Hsp.
  - by rewrite Hflush, lex_from_special.
  - cbn [orb] in Hrest. by rewrite Hrest, Hflush, lex_from_blank.
Qed.

Lemma lex_from_names (n : pystr) (ns : list pystr) (rest : pystr) :
  Forall (λ n, is_name n = true) (n :: ns) → delimited rest = true →
  lex_from (join (py " ") (n :: ns) ++ rest) [] = (n :: ns) ++ lex_from rest [].
Proof.
  revert n. induction ns as [| n' ns IH]; intros n Hns Hrest;
    apply Forall_cons in Hns as [Hn Hns].
  - cbn [join map concat]. rewrite app_nil_r.
    by rewrite lex_from_name by auto using is_name_symbol.
  - rewrite join_cons, <- !app_assoc.
    rewrite lex_from_name by (auto using is_name_symbol).
    change (py " ") with [32]. cbn [app].
    rewrite lex_from_blank by done. by rewrite IH.
Qed.

Lemma lex_from_open (s : pystr) :
  lex_from (py "(" ++ s) [] = py "(" :: lex_from s [].
Proof. by apply lex_from_special. Qed.

Lemma lex_from_close (s : pystr) :
  lex_from (py ")" ++ s) [] = py ")" :: lex_from s [].
Proof. by apply lex_from_special. Qed.

Lemma lex_from_lambda (s : pystr) :
  lex_from (py "λ" ++ s) [] = py "λ" :: lex_from s [].
Proof. by apply lex_from_special. Qed.

Lemma lex_from_dot (s : pystr) :
  lex_from (py "." ++ s) [] = py "." :: lex_from s [].
Proof. by apply lex_from_special. Qed.

Lemma lex_from_space (s : pystr) : lex_from (py " " ++ s) [] = lex_from s [].
Proof. by apply lex_from_blank. Qed.

(** The lexer reads the printed form of a term as its tokens. *)
Lemma lex_from_py_str (t : term) (rest : pystr) :
  names_ok t = true → delimited rest = true →
  lex_from (py_str (of_term t) ++ rest) [] = toks t ++ lex_from rest [].
Proof.
  revert rest. induction t as [t IH] using term_height_ind.
  intros rest Hnames Hrest. destruct t as [n | l r | a b].
  - cbn [of_term py_str toks names_ok] in *.
    by rewrite lex_from_name by auto using is_name_symbol.
  - cbn [names_ok] in Hnames. apply andb_true_iff in Hnames as [Hl Hr].
    assert (∀ u, (height u < height (Application l r))%nat →
                 names_ok u = true → ∀ rest', delimited rest' = true →
                 lex_from (py "(" ++ py_str (of_term u) ++ py ")" ++ rest') []
                 = (py "(" :: toks u ++ [py ")"]) ++ lex_from rest' [])
      as Hparen.
    { intros u Hu Hnu rest' Hrest'. rewrite lex_from_open.
      rewrite (IH u) by done. rewrite lex_from_close.
      cbn [app]. by rewrite <- app_assoc. }
    assert (lex_from ((if is_Variable (of_term r) then py_str (of_term r)
                       else py "(" ++ py_str (of_term r) ++ py ")") ++ rest) []
            = (if is_var r then toks r else py "(" :: toks r ++ [py ")"])
              ++ lex_from rest []) as Hright.
    { destruct r as [n | r1 r2 | ra rb]; cbn [of_term is_Variable is_var].
      - apply (IH (Var n)); [simpl; lia | done | done].
      - rewrite <- !app_assoc.
        apply (Hparen (Application r1 r2)); [simpl; lia | done | done].
      - rewrite <- !app_assoc.
        apply (Hparen (Function ra rb)); [simpl; lia | done | done]. }
    change (py_str (of_term (Application l r)))
      with ((if is_Function (of_term l)
             then py "(" ++ py_str (of_term l) ++ py ")"
             else py_str (of_term l))
            ++ py " "
            ++ (if is_Variable (of_term r) then py_str (of_term r)
                else py "(" ++ py_str (of_term r) ++ py ")")).
    cbn [toks]. rewrite <- !app_assoc.
    destruct l as [n | l1 l2 | la lb]; cbn [of_term is_Function is_abs].
    + rewrite (IH (Var n)) by (simpl; try lia; done).
      by rewrite lex_from_space, Hright.
    + rewrite (IH (Application l1 l2)) by (simpl; try lia; done).
      by rewrite lex_from_space, Hright.
    + rewrite <- !app_assoc.
      rewrite (Hparen (Function la lb)) by (simpl; try lia; done).
      rewrite lex_from_space, Hright. cbn [app]. by rewrite <- ?app_assoc.
  - cbn [names_ok] in Hnames. apply andb_true_iff in Hnames as [Ha Hb].
    rewrite py_str_Function by (by apply names_ok_params).
    rewrite toks_Function. rewrite <- !app_assoc.
    rewrite lex_from_lambda.
    rewrite lex_from_names; [| by constructor; [| apply names_ok_params] | done].
    rewrite lex_from_dot.
    rewrite IH; [| | by apply names_ok_core | done].
    + cbn [app]. by rewrite <- ?app_assoc.
    + pose proof (height_core b). simpl. lia.
Qed.

Lemma lex_py_str (t : term) :
  names_ok t = true → lex (py_str (of_term t)) = toks t.
Proof.
  intros H. unfold lex. rewrite <- (app_nil_r (py_str (of_term t))).
  rewrite lex_from_py_str by done. by rewrite lex_from_nil, app_nil_r.
Qed.

(** ** [apply_stack] on the group of a printed term *)

Lemma of_term_not_str (t : term) : is_str (of_term t) = false.
Proof. by destruct t. Qed.

Lemma of_term_not_None (t : term) : is_None (of_term t) = false.
Proof. by destruct t. Qed.

Lemma of_term_plain (t : term) : is_stack_token (of_term t) = false.
Proof. by destruct t. Qed.

Lemma of_term_params (a : pystr) (b : term) :
  foldr (λ n acc, PyFunction (PyVar n) acc) (of_term (core b)) (a :: params b)
  = of_term (Function a b).
Proof.
  revert a. induction b as [n | l _ r _ | a' b' IH]; intros a; [done | done |].
  cbn [params core foldr of_term] in *. by rewrite IH.
Qed.

(** The objects of a group that is not an abstraction are terms, and
    their left-nested application is the term. *)
Lemma seg_atoms (t : term) :
  is_abs t = false →
  ∃ u us, seg t = of_term u :: map of_term us
          ∧ foldl PyApplication (of_term u) (map of_term us) = of_term t.
Proof.
  induction t as [n | l IHl r _ | a b _]; intros Habs; [| | done].
  - by exists (Var n), [].
  - cbn [seg]. destruct (is_abs l) eqn:Hl.
    + by exists l, [r].
    + destruct (IHl eq_refl) as (u & us & -> & Hchain).
      exists u, (us ++ [r]). rewrite map_app. split; [done |].
      rewrite foldl_app. cbn [foldl map of_term]. by rewrite Hchain.
Qed.

Lemma residue_atoms (t : term) :
  ∃ u us, residue t = of_term u :: map of_term us
          ∧ foldl PyApplication (of_term u) (map of_term us) = of_term t.
Proof.
  unfold residue. destruct (is_abs t) eqn:Habs; [| by apply seg_atoms].
  by exists t, [].
Qed.

Lemma atoms_plain (us : list term) :
  Forall (λ o, is_stack_token o = false) (map of_term us).
Proof. apply Forall_map, Forall_true. intros u. apply of_term_plain. Qed.

Lemma list_pop_snoc (stack : list pyobj) (o : pyobj) :
  list_pop (stack ++ [o]) = Returns (o, stack).
Proof. unfold list_pop. by rewrite last_snoc, removelast_last. Qed.

Lemma apply_stack_loop_app (is1 is2 : list nat) (stack : list pyobj)
    (built : pyobj) (checking : bool) :
  apply_stack_loop (is1 ++ is2) stack built checking
  = f ← apply_stack_loop is1 stack built checking;
    match f with
    | Return _ _ => mret f
    | Continue stack' built' checking' =>
      apply_stack_loop is2 stack' built' checking'
    end.
Proof.
  revert stack built checking. induction is1 as [| i is1 IH];
    intros stack built checking; [done |].
  cbn [app apply_stack_loop].
  destruct (apply_stack_round i stack built checking) as [[? ? | ? ? ?] | e];
    cbn [mbind outcome_bind mret outcome_ret]; [done | apply IH | done].
Qed.

Lemma reverse_seq_app (p k m : nat) :
  reverse (seq p (k + m)) = reverse (seq (p + k) m) ++ reverse (seq p k).
Proof. by rewrite seq_app, reverse_app. Qed.

Lemma reverse_seq_S (p k : nat) :
  reverse (seq p (S k)) = (p + k)%nat :: reverse (seq p k).
Proof. by rewrite seq_S, reverse_snoc. Qed.

(** The indices of a group [λ v1 .. va . o1 .. ob], from the top. *)
Lemma group_indices (p a b : nat) :
  reverse (seq p (1 + (a + (1 + b))))
  = reverse (seq (p + 1 + a + 1) b) ++ [(p + 1 + a)%nat]
    ++ reverse (seq (p + 1) a) ++ [p].
Proof.
  rewrite (seq_app 1), (seq_app a), (seq_app 1 b). rewrite !reverse_app.
  cbn [seq]. rewrite !reverse_singleton. by rewrite <- !app_assoc.
Qed.

Ltac list_norm :=
  repeat first [rewrite <- app_assoc | rewrite app_nil_r | progress cbn [app]].
Ltac list_eq := list_norm; reflexivity.
Ltac len :=
  rewrite ?length_app, ?length_map; cbn [length];
  rewrite ?length_app, ?length_map; cbn [length]; lia.

(** The rounds of the loop, by what is at the index. *)
Lemma round_plain (i : nat) (stack pre post : list pyobj) (o built : pyobj) :
  stack = pre ++ o :: post → i = length pre → is_stack_token o = false →
  apply_stack_round i stack built false = Returns (Continue stack built false).
Proof.
  intros -> -> Ho. unfold is_stack_token in Ho.
  apply orb_false_iff in Ho as [[Hparen Hdot]%orb_false_iff Hlam].
  unfold apply_stack_round, list_get. rewrite list_lookup_middle by done.
  cbn [mbind outcome_bind]. by rewrite Hparen, Hdot, Hlam.
Qed.

Lemma round_param (i : nat) (stack pre : list pyobj) (n : pystr) (built : pyobj) :
  stack = pre ++ [PyVar n] → i = length pre →
  apply_stack_round i stack built true
  = Returns (Continue pre (PyFunction (PyVar n) built) true).
Proof.
  intros -> ->. unfold apply_stack_round, list_get.
  rewrite list_lookup_middle by done.
  cbn [mbind outcome_bind is_Variable]. by rewrite list_pop_snoc.
Qed.

Lemma round_dot (i : nat) (stack pre : list pyobj) (o : pyobj) (os : list pyobj)
    (built : pyobj) :
  stack = pre ++ PyStr (py ".") :: o :: os → i = length pre →
  is_None o = false →
  apply_stack_round i stack built false
  = Returns (Continue pre (foldl PyApplication o os) true).
Proof.
  intros -> -> Ho. unfold apply_stack_round, list_get.
  rewrite list_lookup_middle by done. cbn [mbind outcome_bind].
  replace (eq_str (PyStr (py ".")) (py "(")) with false by reflexivity.
  replace (eq_str (PyStr (py ".")) (py ".")) with true by reflexivity.
  cbv iota.
  replace (pre ++ PyStr (py ".") :: o :: os)
    with ((pre ++ [PyStr (py ".")]) ++ o :: os) by list_eq.
  replace (length pre + 1)%nat with (length (pre ++ [PyStr (py ".")])) by len.
  rewrite build_application_app by done. by rewrite list_pop_snoc.
Qed.

Lemma round_marker (i : nat) (stack pre : list pyobj) (built : pyobj) :
  stack = pre ++ [PyStr (py "λ")] → i = length pre →
  is_Function built = true →
  apply_stack_round i stack built true
  = Returns (Continue (pre ++ [built]) PyNone false).
Proof.
  intros -> -> Hb. unfold apply_stack_round, list_get.
  rewrite list_lookup_middle by done.
  cbn [mbind outcome_bind is_Variable].
  replace (is_lambda (PyStr (py "λ"))) with true by reflexivity.
  cbv iota. rewrite Hb. cbn [negb]. by rewrite list_pop_snoc.
Qed.

Lemma round_paren (i : nat) (stack pre : list pyobj) (o : pyobj)
    (os : list pyobj) (built : pyobj) :
  stack = pre ++ PyStr (py "(") :: o :: os → i = length pre →
  is_None o = false →
  apply_stack_round i stack built false
  = Returns (Return (foldl PyApplication o os) (pre ++ [PyStr (py "(")])).
Proof.
  intros -> -> Ho. unfold apply_stack_round, list_get.
  rewrite list_lookup_middle by done. cbn [mbind outcome_bind].
  replace (eq_str (PyStr (py "(")) (py "(")) with true by reflexivity.
  cbv iota.
  replace (pre ++ PyStr (py "(") :: o :: os)
    with ((pre ++ [PyStr (py "(")]) ++ o :: os) by list_eq.
  replace (length pre + 1)%nat with (length (pre ++ [PyStr (py "(")])) by len.
  by rewrite build_application_app by done.
Qed.

(** Objects that are not the parser's strings are passed over. *)
Lemma loop_plain (p k : nat) (stack pre items post : list pyobj) (built : pyobj) :
  stack = pre ++ items ++ post → p = length pre → k = length items →
  Forall (λ o, is_stack_token o = false) items →
  apply_stack_loop (reverse (seq p k)) stack built false
  = Returns (Continue stack built false).
Proof.
  intros -> -> ->. revert post.
  induction items as [| o items IH] using rev_ind; intros post Hitems; [done |].
  apply Forall_app in Hitems as [Hitems Ho]. apply Forall_inv in Ho.
  rewrite length_app. cbn [length]. rewrite Nat.add_1_r, reverse_seq_S.
  cbn [apply_stack_loop].
  rewrite (round_plain _ _ (pre ++ items) post o) by (done || list_eq || len).
  cbn [mbind outcome_bind].
  replace (pre ++ (items ++ [o]) ++ post) with (pre ++ items ++ o :: post)
    by list_eq.
  by apply IH.
Qed.

(** Between the dot and the marker the variables are popped one by one
    and wrapped around [built]. *)
Lemma loop_params (p k : nat) (stack pre : list pyobj) (vs : list pystr)
    (built : pyobj) :
  stack = pre ++ map PyVar vs → p = length pre → k = length vs →
  apply_stack_loop (reverse (seq p k)) stack built true
  = Returns (Continue pre
               (foldr (λ n acc, PyFunction (PyVar n) acc) built vs) true).
Proof.
  intros -> -> ->. revert built.
  induction vs as [| n vs IH] using rev_ind; intros built.
  - cbn [map length seq reverse apply_stack_loop]. by rewrite app_nil_r.
  - rewrite length_app. cbn [length]. rewrite Nat.add_1_r, reverse_seq_S.
    cbn [apply_stack_loop].
    rewrite (round_param _ _ (pre ++ map PyVar vs) n)
      by (rewrite ?map_app; list_eq || len).
    cbn [mbind outcome_bind]. rewrite IH. by rewrite foldr_app.
Qed.

(** The loop of [apply_stack] over the group of a term leaves the group
    built. *)
Lemma apply_stack_loop_group (p : nat) (pre : list pyobj) (t : term) :
  p = length pre →
  apply_stack_loop (reverse (seq p (length (seg t)))) (pre ++ seg t) PyNone false
  = Returns (Continue (pre ++ residue t) PyNone false).
Proof.
  intros ->. destruct (is_abs t) eqn:Habs.
  - destruct t as [| | a b]; try done. unfold residue. cbn [is_abs].
    destruct (seg_atoms (core b) (is_abs_core b)) as (u & us & Hseg & Hchain).
    rewrite seg_Function, Hseg.
    set (vs := a :: params b). set (os := map of_term us).
    replace (length (PyStr (py "λ") :: map PyVar vs ++ PyStr (py ".")
                     :: of_term u :: os))
      with (1 + (length vs + (1 + length (of_term u :: os))))%nat by len.
    rewrite group_indices, apply_stack_loop_app.
    rewrite (loop_plain _ _ _
               (pre ++ PyStr (py "λ") :: map PyVar vs ++ [PyStr (py ".")])
               (of_term u :: os) [])
      by (list_eq || len || (constructor; [apply of_term_plain | apply atoms_plain])).
    cbn [mbind outcome_bind app apply_stack_loop].
    rewrite (round_dot _ _ (pre ++ PyStr (py "λ") :: map PyVar vs) (of_term u) os)
      by (list_eq || len || apply of_term_not_None).
    cbn [mbind outcome_bind]. rewrite apply_stack_loop_app.
    rewrite (loop_params _ _ _ (pre ++ [PyStr (py "λ")]) vs) by (list_eq || len).
    cbn [mbind outcome_bind apply_stack_loop]. unfold os. rewrite Hchain.
    unfold vs. rewrite of_term_params.
    rewrite (round_marker _ _ pre) by (list_eq || len || done).
    done.
  - unfold residue. rewrite Habs.
    destruct (seg_atoms t Habs) as (u & us & -> & _).
    rewrite (loop_plain _ _ _ pre (of_term u :: map of_term us) [])
      by (list_eq || len || (constructor; [apply of_term_plain | apply atoms_plain])).
    done.
Qed.

(** At a right parenthesis: the group after the last left parenthesis
    is replaced by its term. *)
Lemma apply_stack_group_paren (stk : list pyobj) (t : term) :
  apply_stack (stk ++ PyStr (py "(") :: seg t)
  = Returns (of_term t, stk ++ [PyStr (py "(")]).
Proof.
  unfold apply_stack.
  replace (stk ++ PyStr (py "(") :: seg t)
    with ((stk ++ [PyStr (py "(")]) ++ seg t) by list_eq.
  replace (length ((stk ++ [PyStr (py "(")]) ++ seg t))
    with (S (length stk) + length (seg t))%nat by len.
  rewrite reverse_seq_app, apply_stack_loop_app.
  rewrite apply_stack_loop_group by len. cbn [mbind outcome_bind].
  rewrite reverse_seq_S. cbn [apply_stack_loop].
  destruct (residue_atoms t) as (u & us & -> & Hchain).
  rewrite (round_paren _ _ stk (of_term u) (map of_term us))
    by (list_eq || len || apply of_term_not_None).
  cbn [mbind outcome_bind mret outcome_ret]. by rewrite Hchain.
Qed.

(** At the end of the input: the group that is the whole stack. *)
Lemma apply_stack_group_end (t : term) :
  apply_stack (seg t) = Returns (of_term t, []).
Proof.
  unfold apply_stack.
  pose proof (apply_stack_loop_group 0 [] t eq_refl) as Hloop.
  cbn [app] in Hloop. rewrite Hloop. cbn [mbind outcome_bind is_None].
  destruct (residue_atoms t) as (u & us & -> & Hchain).
  pose proof (build_application_app [] (of_term u) (map of_term us)
                (of_term_not_None u)) as Hbuild.
  cbn [app length] in Hbuild. rewrite Hbuild. by rewrite Hchain.
Qed.

(** ** [parse] on the tokens of a printed term *)

Lemma name_not_in (n hay : pystr) :
  is_symbol n = true → Forall (λ c, is_special c = true) hay →
  str_in n hay = false.
Proof.
  intros Hn Hhay. destruct (str_in n hay) eqn:Hin; [| done].
  unfold is_symbol in Hn. apply andb_true_iff in Hn as [Hne Hs].
  apply bool_decide_eq_true in Hne. destruct n as [| c n]; [done |].
  apply str_in_head in Hin. rewrite Forall_forall in Hhay.
  specialize (Hhay c Hin). cbn [forallb] in Hs.
  apply andb_true_iff in Hs as [Hc _].
  apply symbol_char_spec in Hc as [Hc _]. congruence.
Qed.

Lemma parse_token_name (n : pystr) (stk : list pyobj) (il : bool) (m : Z)
    (v : pyobj) :
  is_name n = true →
  parse_token n (Locals stk il m v)
  = Returns (Next (Locals (stk ++ [PyVar n]) il m v)).
Proof.
  intros Hn. unfold is_name in Hn.
  apply andb_true_iff in Hn as [[Hsym Hrun]%andb_true_iff Hstep].
  apply negb_true_iff, bool_decide_eq_false in Hrun, Hstep.
  unfold parse_token.
  rewrite (name_not_in n (py "(")) by (done || by repeat constructor).
  rewrite (name_not_in n (py "\λ.")) by (done || by repeat constructor).
  rewrite decide_False by (by intros ->).
  rewrite decide_False by done. rewrite decide_False by done.
  rewrite decide_False by (by intros ->). done.
Qed.

Lemma parse_tokens_names (ns rest : list pystr) (stk : list pyobj) (il : bool)
    (m : Z) (v : pyobj) :
  Forall (λ n, is_name n = true) ns →
  parse_tokens (ns ++ rest) (Locals stk il m v)
  = parse_tokens rest (Locals (stk ++ map PyVar ns) il m v).
Proof.
  intros Hns. revert stk. induction Hns as [| n ns Hn Hns IH]; intros stk.
  - cbn [app map]. by rewrite app_nil_r.
  - cbn [app parse_tokens map]. rewrite parse_token_name by done.
    cbn [mbind outcome_bind]. rewrite IH. by rewrite <- app_assoc.
Qed.

Lemma parse_tokens_cons (token : pystr) (tokens : list pystr) (st : locals) :
  parse_tokens (token :: tokens) st
  = f ← parse_token token st;
    match f with
    | Done _ => mret f
    | Next st' => parse_tokens tokens st'
    end.
Proof. reflexivity. Qed.

Lemma parse_token_open (stk : list pyobj) (il : bool) (m : Z) (v : pyobj) :
  parse_token (py "(") (Locals stk il m v)
  = Returns (Next (Locals (stk ++ [PyStr (py "(")]) il m v)).
Proof. reflexivity. Qed.

Lemma parse_token_lambda (stk : list pyobj) (il : bool) (m : Z) (v : pyobj) :
  parse_token (py "λ") (Locals stk il m v)
  = Returns (Next (Locals (stk ++ [PyStr (py "λ")]) true m v)).
Proof. reflexivity. Qed.

Lemma parse_token_dot (stk : list pyobj) (il : bool) (m : Z) (v : pyobj) :
  parse_token (py ".") (Locals stk il m v)
  = Returns (Next (Locals (stk ++ [PyStr (py ".")]) false m v)).
Proof. reflexivity. Qed.

Lemma parse_token_close (stk : list pyobj) (il : bool) (m : Z) (v : pyobj)
    (t : term) :
  parse_token (py ")") (Locals (stk ++ PyStr (py "(") :: seg t) il m v)
  = Returns (Next (Locals (stk ++ [of_term t]) il m v)).
Proof.
  change (parse_token (py ")") (Locals (stk ++ PyStr (py "(") :: seg t) il m v))
    with ('(built, stack) ← apply_stack (stk ++ PyStr (py "(") :: seg t);
          if is_str built then mret (Done (built, LAMBDA_MODE_ERR))
          else if decide (length stack = 0%nat) then
            mret (syntax_error "Syntax error: unexpected ')'")
          else
            '(_, stack) ← list_pop stack;
            mret (Next (Locals (stack ++ [built]) il m v))).
  rewrite apply_stack_group_paren. cbn [mbind outcome_bind].
  rewrite of_term_not_str.
  rewrite decide_False by (rewrite length_app; cbn [length]; lia).
  by rewrite list_pop_snoc.
Qed.

(** Reading the tokens of a printed term pushes its group. *)
Lemma parse_tokens_toks (t : term) (rest : list pystr) (stk : list pyobj)
    (il : bool) (m : Z) (v : pyobj) :
  names_ok t = true →
  ∃ il', parse_tokens (toks t ++ rest) (Locals stk il m v)
         = parse_tokens rest (Locals (stk ++ seg t) il' m v).
Proof.
  revert rest stk il. induction t as [t IH] using term_height_ind.
  intros rest stk il Hnames.
  assert (∀ u, (height u < height t)%nat → names_ok u = true →
               ∀ rest' stk' il0,
                 ∃ il', parse_tokens (py "(" :: (toks u ++ [py ")"]) ++ rest')
                                     (Locals stk' il0 m v)
                        = parse_tokens rest' (Locals (stk' ++ [of_term u]) il' m v))
    as Hparen.
  { intros u Hu Hnu rest' stk' il0. cbn [parse_tokens].
    rewrite parse_token_open. cbn [mbind outcome_bind].
    rewrite <- app_assoc.
    destruct (IH u Hu ([py ")"] ++ rest') (stk' ++ [PyStr (py "(")]) il0 Hnu)
      as [il1 ->].
    exists il1. cbn [app parse_tokens]. rewrite <- app_assoc. cbn [app].
    rewrite parse_token_close. done. }
  destruct t as [n | l r | a b].
  - exists il. cbn [toks seg app parse_tokens names_ok] in *.
    by rewrite parse_token_name.
  - cbn [names_ok] in Hnames. apply andb_true_iff in Hnames as [Hl Hr].
    cbn [toks seg]. rewrite <- !app_assoc.
    assert (∃ il1, parse_tokens
                     ((if is_abs l then py "(" :: toks l ++ [py ")"] else toks l)
                      ++ (if is_var r then toks r
                          else py "(" :: toks r ++ [py ")"]) ++ rest)
                     (Locals stk il m v)
                   = parse_tokens
                       ((if is_var r then toks r
                         else py "(" :: toks r ++ [py ")"]) ++ rest)
                       (Locals (stk ++ (if is_abs l then [of_term l] else seg l))
                               il1 m v)) as [il1 ->].
    { destruct (is_abs l).
      - apply (Hparen l); [simpl; lia | done].
      - apply (IH l); [simpl; lia | done]. }
    destruct r as [n | r1 r2 | ra rb]; cbn [is_var app].
    + destruct (IH (Var n)) with (rest := rest) (il := il1)
        (stk := stk ++ (if is_abs l then [of_term l] else seg l))
        as [il2 ->]; [simpl; lia | done |].
      exists il2. cbn [seg of_term]. by rewrite <- app_assoc.
    + destruct (Hparen (Application r1 r2)) with (rest' := rest) (il0 := il1)
        (stk' := stk ++ (if is_abs l then [of_term l] else seg l))
        as [il2 ->]; [simpl; lia | done |].
      exists il2. by rewrite <- app_assoc.
    + destruct (Hparen (Function ra rb)) with (rest' := rest) (il0 := il1)
        (stk' := stk ++ (if is_abs l then [of_term l] else seg l))
        as [il2 ->]; [simpl; lia | done |].
      exists il2. by rewrite <- app_assoc.
  - cbn [names_ok] in Hnames. apply andb_true_iff in Hnames as [Ha Hb].
    rewrite toks_Function, seg_Function.
    replace ((py "λ" :: (a :: params b) ++ py "." :: toks (core b)) ++ rest)
      with (py "λ" :: (a :: params b) ++ py "." :: (toks (core b) ++ rest))
      by list_eq.
    rewrite parse_tokens_cons, parse_token_lambda. cbn [mbind outcome_bind].
    rewrite parse_tokens_names by (constructor; [done | by apply names_ok_params]).
    rewrite parse_tokens_cons, parse_token_dot. cbn [mbind outcome_bind].
    destruct (IH (core b)) with (rest := rest) (il := false)
      (stk := ((stk ++ [PyStr (py "λ")]) ++ map PyVar (a :: params b))
              ++ [PyStr (py ".")])
      as [il2 ->].
    { pose proof (height_core b). simpl. lia. }
    { by apply names_ok_core. }
    exists il2. do 2 f_equal. list_eq.
Qed.

(** X18: printing a term and parsing the text gives the term back, when
    its variables and parameters are named by symbols other than [run]
    and [step]. *)
Theorem parse_py_str (t : term) :
  names_ok t = true →
  parse (py_str (of_term t)) = Returns (of_term t, LAMBDA_MODE_NONE).
Proof.
  intros Hnames. unfold parse. rewrite lex_py_str by done.
  rewrite <- (app_nil_r (toks t)).
  destruct (parse_tokens_toks t [] [] false LAMBDA_MODE_NONE PyNone Hnames)
    as [il' ->].
  cbn [parse_tokens app mbind outcome_bind mret outcome_ret].
  rewrite apply_stack_group_end. cbn [mbind outcome_bind length].
  by rewrite of_term_not_str.
Qed.

Lemma parse_py_str_witness :
  parse (py_str (of_term (Function (py "f") (Function (py "x")
           (Application Ex.id_y (Application (Var (py "f")) Ex.x))))))
  = Returns (of_term (Function (py "f") (Function (py "x")
               (Application Ex.id_y (Application (Var (py "f")) Ex.x)))),
             LAMBDA_MODE_NONE).
Proof.
  apply (parse_py_str (Function (py "f") (Function (py "x")
           (Application Ex.id_y (Application (Var (py "f")) Ex.x))))).
  reflexivity.
Defined.

(** * The loops of the command loop *)

(** ** The reduction loop *)

Lemma run_loop_enough (fuel : nat) (max_iters : Z) (tree : term) (running : bool)
    (iter : Z) :
  (Z.to_nat (max_iters - iter) < fuel)%nat →
  (running = false → has_redex tree = false) →
  ∃ tree' running' iter',
    run_loop fuel max_iters tree running iter = Some (tree', running', iter')
    ∧ (iter ≤ iter')%Z ∧ (iter' ≤ Z.max iter max_iters)%Z
    ∧ tree' = Nat.iter (Z.to_nat (iter' - iter)) (λ t, (step t).1) tree
    ∧ (running' = false → has_redex tree' = false)
    ∧ (iter' < max_iters → running' = false)%Z.
Proof.
  revert tree running iter.
  induction fuel as [| fuel IH]; intros tree running iter Hfuel Hnf; [lia |].
  cbn [run_loop].
  destruct (running && bool_decide (iter < max_iters)%Z) eqn:Hcond.
  - apply andb_true_iff in Hcond as [-> Hlt]. apply bool_decide_eq_true in Hlt.
    destruct (step tree) as [tree1 running1] eqn:Hstep.
    destruct (IH tree1 running1 (iter + 1)%Z)
      as (tree' & running' & iter' & -> & Hle & Hmax & Htree & Hnf' & Hstop).
    { lia. }
    { intros ->. pose proof (step_unchanged _ _ Hstep) as ->.
      rewrite <- step_changed. by rewrite Hstep. }
    exists tree', running', iter'. split; [done |].
    split; [lia |]. split; [lia |]. split; [| done].
    rewrite Htree.
    replace (Z.to_nat (iter' - iter)) with (S (Z.to_nat (iter' - (iter + 1))))
      by lia.
    rewrite Nat.iter_succ_r. by rewrite Hstep.
  - exists tree, running, iter. split; [done |]. split; [lia |].
    split; [lia |]. rewrite Z.sub_diag. split; [done |]. split; [done |].
    intros Hlt. apply andb_false_iff in Hcond as [-> | Hge]; [done |].
    apply bool_decide_eq_false in Hge. lia.
Qed.

(** X19: the reduction loop makes [iter] calls of [step], at most
    [max_iters] of them; the tree it ends with is the result of these
    calls; it ends with [running = False] only on a term without a redex,
    and it ends before [max_iters] rounds only with [running = False]. *)
Theorem run_result (max_iters : Z) (tree tree' : term) (running : bool) (iter : Z) :
  run max_iters tree = (tree', running, iter) →
  (0 ≤ iter ≤ Z.max 0 max_iters)%Z
  ∧ tree' = Nat.iter (Z.to_nat iter) (λ t, (step t).1) tree
  ∧ (running = false → has_redex tree' = false)
  ∧ (iter < max_iters → running = false)%Z.
Proof.
  unfold run.
  destruct (run_loop_enough (S (Z.to_nat max_iters)) max_iters tree true 0%Z)
    as (t & r & i & -> & Hle & Hmax & Htree & Hnf & Hstop); [lia | done |].
  cbn [default]. intros [= <- <- <-]. rewrite Z.sub_0_r in Htree. done.
Qed.

Lemma run_result_witness :
  (0 ≤ 2 ≤ Z.max 0 10)%Z
  ∧ Ex.a = Nat.iter (Z.to_nat 2) (λ t, (step t).1) (Application Ex.id_x Ex.a)
  ∧ (false = false → has_redex Ex.a = false)
  ∧ (2 < 10 → false = false)%Z.
Proof.
  apply (run_result 10 (Application Ex.id_x Ex.a) Ex.a false 2).
  vm_compute. reflexivity.
Defined.

(** X20: on a term without a redex the loop still calls [step] once,
    if [max_iters] allows a round at all, and ends with [iter = 1]; so
    with [max_iters = 1] the warning is printed for a term that was in
    normal form from the start, and with a larger bound it is not. *)
Theorem run_normal_form (max_iters : Z) (tree : term) :
  has_redex tree = false → (1 ≤ max_iters)%Z →
  run max_iters tree = (tree, false, 1%Z)
  ∧ warns max_iters tree = bool_decide (max_iters = 1%Z).
Proof.
  intros Hnf Hmax.
  assert (run max_iters tree = (tree, false, 1%Z)) as Hrun.
  { unfold run. destruct (Z.to_nat max_iters) as [| fuel] eqn:Hfuel; [lia |].
    cbn [run_loop andb]. rewrite bool_decide_eq_true_2 by lia.
    destruct (step tree) as [tree1 running1] eqn:Hstep.
    assert (running1 = false) as ->.
    { rewrite <- Hnf, <- step_changed. by rewrite Hstep. }
    pose proof (step_unchanged _ _ Hstep) as ->. done. }
  split; [done |]. unfold warns. rewrite Hrun. cbn [snd].
  apply bool_decide_ext. lia.
Qed.

Lemma run_normal_form_witness :
  run 1 Ex.id_x = (Ex.id_x, false, 1%Z)
  ∧ warns 1 Ex.id_x = bool_decide (1 = 1)%Z.
Proof. apply (run_normal_form 1 Ex.id_x); [reflexivity | lia]. Defined.

(** ** [populate] *)

Lemma uint_str_inj (u u' : Decimal.uint) : uint_str u = uint_str u' → u = u'.
Proof.
  revert u'. induction u as [| u IH | u IH | u IH | u IH | u IH | u IH | u IH
                              | u IH | u IH | u IH];
    intros [| u' | u' | u' | u' | u' | u' | u' | u' | u' | u']; cbn [uint_str];
    intros H; try discriminate H; try done;
    injection H as H; by rewrite (IH u' H).
Qed.

Lemma uint_str_not_minus (u : Decimal.uint) (s : pystr) : uint_str u ≠ 45 :: s.
Proof. by destruct u. Qed.

Lemma int_str_inj (i j : Z) : int_str i = int_str j → i = j.
Proof.
  unfold int_str. intros H.
  rewrite <- (DecimalZ.of_to i), <- (DecimalZ.of_to j).
  destruct (Z.to_int i) as [u | u], (Z.to_int j) as [u' | u'].
  - by rewrite (uint_str_inj u u' H).
  - by apply uint_str_not_minus in H.
  - symmetry in H. by apply uint_str_not_minus in H.
  - injection H as H. by rewrite (uint_str_inj u u' H).
Qed.

Lemma range_0 (b : Z) : range 0 b = map Z.of_nat (seq 0 (Z.to_nat b)).
Proof. unfold range. by rewrite Z.sub_0_r. Qed.

Lemma church_body (k : nat) :
  Application (Var (py "s")) (Nat.iter k (Application (Var (py "s"))) (Var (py "z")))
  = Nat.iter (S k) (Application (Var (py "s"))) (Var (py "z")).
Proof. done. Qed.

Lemma populate_loop_other (m k : nat) (start : Z) (body : term)
    (saved : gmap pystr term) (key : pystr) :
  (∀ j, (k ≤ j < k + m)%nat → (start ≤ Z.of_nat j)%Z →
        key ≠ int_str (Z.of_nat j)) →
  populate_loop (map Z.of_nat (seq k m)) start body saved !! key = saved !! key.
Proof.
  revert k body saved. induction m as [| m IH]; intros k body saved Hkey; [done |].
  cbn [seq map populate_loop]. rewrite IH by (intros j Hj; apply Hkey; lia).
  case_decide as Hstart; [| done].
  rewrite lookup_insert_ne; [done |]. intros Heq. by apply (Hkey k); [lia | |].
Qed.

Lemma populate_loop_stores (m k : nat) (start : Z) (saved : gmap pystr term)
    (n : nat) :
  (k ≤ n < k + m)%nat → (start ≤ Z.of_nat n)%Z →
  populate_loop (map Z.of_nat (seq k m)) start
                (Nat.iter k (Application (Var (py "s"))) (Var (py "z"))) saved
  !! int_str (Z.of_nat n)
  = Some (church n).
Proof.
  revert k saved. induction m as [| m IH]; intros k saved Hn Hstart; [lia |].
  cbn [seq map populate_loop]. rewrite church_body.
  destruct (decide (n = k)) as [-> | Hne].
  - rewrite populate_loop_other.
    + rewrite decide_True by done. by rewrite lookup_insert_eq.
    + intros j Hj _ Heq. apply int_str_inj in Heq. lia.
  - apply IH; [lia | done].
Qed.

(** X21: [populate start end] stores under the name of every number [n]
    of the range that is not below [start] the Church numeral of [n],
    whether or not the name was defined before. *)
Theorem populate_stores (start end_ : Z) (saved : gmap pystr term) (n : Z) :
  (0 ≤ n ≤ end_)%Z → (start ≤ n)%Z →
  populate start end_ saved !! int_str n = Some (church (Z.to_nat n)).
Proof.
  intros Hn Hstart. unfold populate. rewrite range_0.
  rewrite <- (Z2Nat.id n) at 1 by lia.
  apply (populate_loop_stores _ 0 start saved (Z.to_nat n)); lia.
Qed.

Lemma populate_stores_witness :
  populate 5 12 {[ py "12" := Ex.a ]} !! py "12" = Some (church 12).
Proof.
  change (py "12") with (int_str 12). change 12%nat with (Z.to_nat 12).
  apply (populate_stores 5 12 {[ int_str 12 := Ex.a ]} 12); lia.
Defined.

(** X22: [populate] leaves every other entry of the environment as it
    was. *)
Theorem populate_other (start end_ : Z) (saved : gmap pystr term) (key : pystr) :
  (∀ n, (0 ≤ n ≤ end_)%Z → (start ≤ n)%Z → key ≠ int_str n) →
  populate start end_ saved !! key = saved !! key.
Proof.
  intros Hkey. unfold populate. rewrite range_0.
  apply populate_loop_other. intros j Hj Hstart. apply Hkey; lia.
Qed.

Lemma populate_other_witness :
  populate 1 3 {[ py "x" := Ex.a ]} !! py "x"
  = ({[ py "x" := Ex.a ]} : gmap pystr term) !! py "x".
Proof.
  apply (populate_other 1 3 {[ py "x" := Ex.a ]} (py "x")).
  intros n Hn _ Heq.
  assert (n = 0 ∨ n = 1 ∨ n = 2 ∨ n = 3)%Z as [-> | [-> | [-> | ->]]] by lia;
    vm_compute in Heq; discriminate Heq.
Defined.
